(** * cdk8s [ApiObjectMetadataDefinition] (packages/cdk8s/src/metadata.ts)

    A shallow embedding of the metadata holder.  JavaScript objects are
    reference values: the constructor keeps the caller's [options] object
    as [_additionalAttributes] and the caller's [options.labels] and
    [options.annotations] objects as [labels] and [annotations], and the
    three [add*] methods write into those objects in place.  The model
    therefore has an explicit object store, and the record holds
    locations into it.

    Scope of the model: an object has a prototype, own enumerable data
    properties and may have been frozen by its owner; a read [o[k]] and a
    write [o[k] = v] follow the prototype chain as the language defines
    them, up to [Object.prototype] and its members.  A prototype that is
    not an object of the store (an array, a function, a deferred value)
    counts as an object without properties of its own.  Accessor
    properties defined by the caller and proxies are not modelled, numbers
    are integers, and property order is not observable. *)

From stdpp Require Import gmap strings list fin_maps.
From Stdlib Require Import ZArith.

Set Warnings "-register-all".

(** ** Values and the object store *)

Abbreviation loc := positive.

(** A JavaScript value as the component sees it.  [VLazy t] is a deferred
    value (a token) that the resolver replaces; [VRef l] is a reference to
    an object or an array in the store; [VObjectPrototype] is the object
    [Object.prototype] and [VBuiltin k] the function it holds under [k]
    ([Object] itself for [constructor]). *)
Inductive value :=
  | VUndefined
  | VNull
  | VBool (b : bool)
  | VNum (n : Z)
  | VStr (s : string)
  | VLazy (t : nat)
  | VRef (l : loc)
  | VObjectPrototype
  | VBuiltin (k : string).

#[global] Instance value_eq_dec : EqDecision value.
Proof. solve_decision. Defined.

(** An object of the store: its prototype ([Object.prototype] for an
    object literal, [null] after [Object.create(null)], another object
    otherwise), whether [Object.freeze] was applied to it, and its own
    properties. *)
Inductive cell :=
  | CObject (proto : value) (frozen : bool) (props : gmap string value)
  | CArr (elems : list value).

(** What an object literal creates: prototype [Object.prototype], not
    frozen. *)
Abbreviation CObj m := (CObject VObjectPrototype false m).

Abbreviation heap := (gmap loc cell).

(** The plain document a snapshot is made of.  [DFun k] is the built-in
    function [VBuiltin k], which is no data and is kept as it is. *)
Inductive doc :=
  | DUndefined
  | DNull
  | DBool (b : bool)
  | DNum (n : Z)
  | DStr (s : string)
  | DArr (elems : list doc)
  | DObj (props : gmap string doc)
  | DFun (k : string).

(** What a call can throw. *)
Inductive exn :=
  | RangeError
  | TypeError
  | Thrown (msg : string).

Inductive result (A : Type) :=
  | Ok (a : A)
  | Err (e : exn).
Arguments Ok {A} a.
Arguments Err {A} e.

Definition result_bind {A B} (f : A → result B) (r : result A) : result B :=
  match r with Ok a => f a | Err e => Err e end.

#[global] Instance result_ret : MRet result := @Ok.
#[global] Instance result_mbind : MBind result := @result_bind.
#[global] Instance result_fmap : FMap result :=
  λ A B f r, match r with Ok a => Ok (f a) | Err e => Err e end.

Definition result_to_option {A} (r : result A) : option A :=
  match r with Ok a => Some a | Err _ => None end.

(** Own properties of the object at [l] (empty for anything that is not
    an object). *)
Definition own_props (h : heap) (l : loc) : gmap string value :=
  match h !! l with
  | Some (CObject _ _ m) => m
  | _ => ∅
  end.

Definition is_object (h : heap) (l : loc) : Prop :=
  ∃ p fz m, h !! l = Some (CObject p fz m).

(** The [[Prototype]] of the object at [l] ([Object.prototype] for
    anything that is not an object of the store). *)
Definition proto_of (h : heap) (l : loc) : value :=
  match h !! l with
  | Some (CObject p _ _) => p
  | _ => VObjectPrototype
  end.

(** *** The prototype chain *)

(** The functions [Object.prototype] holds, each in a writable data
    property.  It also holds the accessor [__proto__]. *)
Definition object_prototype_members : list string :=
  [ "constructor"; "hasOwnProperty"; "isPrototypeOf"; "propertyIsEnumerable";
    "toLocaleString"; "toString"; "valueOf";
    "__defineGetter__"; "__defineSetter__";
    "__lookupGetter__"; "__lookupSetter__" ].

(** What a chain of prototypes holds under a key: nothing, a data
    property with its value and whether it can be written, or the
    accessor [__proto__] of [Object.prototype]. *)
Inductive slot :=
  | Missing
  | Data (v : value) (writable : bool)
  | ProtoAccessor.

Definition object_prototype_slot (k : string) : slot :=
  if decide (k = "__proto__") then ProtoAccessor
  else if bool_decide (k ∈ object_prototype_members) then Data (VBuiltin k) true
  else Missing.

(** The property [k] as the chain that starts at the prototype [p] holds
    it: the first own property [k] on the way up, a property of a frozen
    object being read-only.  The model looks into [Object.prototype] and
    into the objects of the store; any other prototype (an array, a
    function, a deferred value) counts as an object without properties of
    its own that inherits from [Object.prototype].  The engine refuses to
    build a chain that comes back to an object, so a walk visits every
    object at most once: [seen] holds the objects visited and [fuel]
    bounds their number. *)
Fixpoint inherited (fuel : nat) (h : heap) (seen : gset loc) (p : value)
    (k : string) : slot :=
  match p with
  | VNull => Missing
  | VRef l =>
      if decide (l ∈ seen) then Missing
      else match h !! l with
           | Some (CObject p' fz m) =>
               match m !! k with
               | Some v => Data v (negb fz)
               | None =>
                   match fuel with
                   | 0 => Missing
                   | S fuel' => inherited fuel' h ({[l]} ∪ seen) p' k
                   end
               end
           | _ => object_prototype_slot k
           end
  | _ => object_prototype_slot k
  end.

(** [o[k]]: the own property, or else what the prototype chain holds; the
    getter of [__proto__] returns the prototype of [o]. *)
Definition get_prop (h : heap) (l : loc) (k : string) : value :=
  match own_props h l !! k with
  | Some v => v
  | None =>
      match inherited (size h) h {[l]} (proto_of h l) k with
      | Data v _ => v
      | ProtoAccessor => proto_of h l
      | Missing => VUndefined
      end
  end.

(** The values the setter of [__proto__] acts on: objects and [null]. *)
Definition is_object_or_null (v : value) : bool :=
  match v with
  | VNull | VRef _ | VObjectPrototype | VBuiltin _ | VLazy _ => true
  | _ => false
  end.

(** Whether the chain that starts at [p] passes through the object at
    [l]. *)
Fixpoint on_chain (fuel : nat) (h : heap) (seen : gset loc) (p : value)
    (l : loc) : bool :=
  match p with
  | VRef l' =>
      if decide (l' = l) then true
      else if decide (l' ∈ seen) then false
      else match h !! l', fuel with
           | Some (CObject p' _ _), S fuel' =>
               on_chain fuel' h ({[l']} ∪ seen) p' l
           | _, _ => false
           end
  | _ => false
  end.

(** [o.__proto__ = v] where [o], the object at [l], inherits the accessor
    of [Object.prototype]: nothing happens unless [v] is an object or
    [null]; then [v] becomes the prototype of [o], unless it already is;
    this throws when [o] is frozen and when the chain of [v] passes
    through [o]. *)
Definition set_prototype (h : heap) (l : loc) (p : value) (fz : bool)
    (m : gmap string value) (v : value) : result heap :=
  if is_object_or_null v then
    if decide (v = p) then Ok h
    else if fz then Err TypeError
    else if on_chain (size h) h ∅ v l then Err TypeError
    else Ok (<[l := CObject v fz m]> h)
  else Ok h.

(** [o[k] = v] in strict code.  An own property is overwritten; without
    one, the prototype chain decides: the accessor [__proto__] runs its
    setter and no property is created, an inherited read-only property
    makes the assignment throw, and otherwise [o] gets a new own property.
    A frozen object takes no write.  The record only ever writes to
    objects; a location that holds no object is left alone. *)
Definition set_prop (h : heap) (l : loc) (k : string) (v : value)
  : result heap :=
  match h !! l with
  | Some (CObject p fz m) =>
      let define := if fz then Err TypeError
                    else Ok (<[l := CObject p fz (<[k := v]> m)]> h) in
      match m !! k with
      | Some _ => define
      | None =>
          match inherited (size h) h {[l]} p k with
          | ProtoAccessor => set_prototype h l p fz m v
          | Data _ false => Err TypeError
          | Data _ true | Missing => define
          end
      end
  | _ => Ok h
  end.

(** The store after [o[k] = v], thrown or not. *)
Definition written (h : heap) (l : loc) (k : string) (v : value) : heap :=
  match set_prop h l k v with
  | Ok h' => h'
  | Err _ => h
  end.

(** A store extended by new empty objects. *)
Definition extends (h h' : heap) : Prop :=
  h ⊆ h' ∧ ∀ l c, h' !! l = Some c → h !! l = None → c = CObj ∅.

(** A new object gets a location that is not in use. *)
Definition alloc (c : cell) (h : heap) : loc * heap :=
  let l := fresh (dom h) in (l, <[l := c]> h).

(** ** Object literals

    [{ ...src, k1: v1, k2: v2 }] is evaluated left to right on a new
    object: a spread copies the own properties of its source over what is
    already there, a property definition sets one key. *)
Inductive member :=
  | Spread (src : gmap string value)
  | Field (k : string) (v : value).

Definition define_member (obj : gmap string value) (m : member)
  : gmap string value :=
  match m with
  | Spread src => src ∪ obj
  | Field k v => <[k := v]> obj
  end.

Definition object_literal (ms : list member) : gmap string value :=
  foldl define_member ∅ ms.

(** ** The record *)

Record ApiObjectMetadataDefinition := {
  name : option string;
  namespace : option string;
  labels : loc;
  annotations : loc;
  _additionalAttributes : loc;
}.

(** The instance together with the store its fields point into. *)
Record world := {
  self : ApiObjectMetadataDefinition;
  store : heap;
}.

(** Methods run in a state monad over [world] and may throw. *)
Definition M (A : Type) : Type := world → result A * world.

Definition m_ret {A} (a : A) : M A := λ w, (Ok a, w).

Definition m_bind {A B} (k : A → M B) (c : M A) : M B :=
  λ w, match c w with
       | (Ok a, w') => k a w'
       | (Err e, w') => (Err e, w')
       end.

#[global] Instance M_ret : MRet M := @m_ret.
#[global] Instance M_mbind : MBind M := @m_bind.

Definition gets {A} (f : world → A) : M A := λ w, (Ok (f w), w).

Definition modify_store (f : heap → heap) : M unit :=
  λ w, (Ok tt, {| self := self w; store := f (store w) |}).

Definition lift {A} (r : result A) : M A := λ w, (r, w).

(** A field typed [string | undefined]. *)
Definition optional_string (v : value) : option (option string) :=
  match v with
  | VUndefined => Some None
  | VStr s => Some (Some s)
  | _ => None
  end.

Definition value_of_optional (s : option string) : value :=
  match s with Some s => VStr s | None => VUndefined end.

(** [v ?? { }] for a field typed as an object: the object itself when
    there is one, a new empty object when [v] is [undefined] or [null]. *)
Definition object_or_fresh (v : value) (h : heap) : option (loc * heap) :=
  match v with
  | VUndefined | VNull => Some (alloc (CObj ∅) h)
  | VRef l =>
      match h !! l with Some (CObject _ _ _) => Some (l, h) | _ => None end
  | _ => None
  end.

(** [constructor(options: ApiObjectMetadata = { })].  [None] as argument
    is the omitted argument; the result is [None] when [options] does not
    have the declared type (its [name] or [namespace] is not a string, its
    [labels] or [annotations] is not an object). *)
Definition new_ApiObjectMetadataDefinition (options : option loc) (h0 : heap)
  : option world :=
  let '(o, h1) := match options with
                  | Some o => (o, h0)
                  | None => alloc (CObj ∅) h0
                  end in
  match h1 !! o with
  | Some (CObject _ _ _) =>
      nm ← optional_string (get_prop h1 o "name");
      '(lbl, h2) ← object_or_fresh (get_prop h1 o "labels") h1;
      '(ann, h3) ← object_or_fresh (get_prop h2 o "annotations") h2;
      ns ← optional_string (get_prop h3 o "namespace");
      Some {| self := {| name := nm; namespace := ns; labels := lbl;
                         annotations := ann; _additionalAttributes := o |};
              store := h3 |}
  | _ => None
  end.

(** [target[key] = val], where a throw leaves the store as it was. *)
Definition assign (target : loc) (key : string) (val : value) : M unit :=
  h ← gets store;
  h' ← lift (set_prop h target key val);
  modify_store (λ _, h').

(** [this.labels[key] = value] *)
Definition addLabel (key val : string) : M unit :=
  this ← gets self;
  assign (labels this) key (VStr val).

(** [return this.labels[key]] *)
Definition getLabel (key : string) : M value :=
  this ← gets self;
  h ← gets store;
  mret (get_prop h (labels this) key).

(** [this.annotations[key] = value] *)
Definition addAnnotation (key val : string) : M unit :=
  this ← gets self;
  assign (annotations this) key (VStr val).

(** [this._additionalAttributes[key] = value] *)
Definition add (key : string) (val : value) : M unit :=
  this ← gets self;
  assign (_additionalAttributes this) key val.

Record SanitizeOptions := {
  filterEmptyArrays : bool;
  filterEmptyObjects : bool;
}.

Definition both_filters : SanitizeOptions :=
  {| filterEmptyArrays := true; filterEmptyObjects := true |}.

Section Collaborators.

(** [resolve] and [sanitizeValue] are imported from [./_resolve] and
    [./_util].  They read their argument and build a new value; neither
    writes to the store. *)
Variable resolve : heap → value → result doc.
Variable sanitizeValue : doc → SanitizeOptions → result doc.

(** The object literal of [toJson]. *)
Definition toJson_literal (w : world) : gmap string value :=
  let this := self w in
  object_literal
    [ Spread (own_props (store w) (_additionalAttributes this));
      Field "name" (value_of_optional (name this));
      Field "namespace" (value_of_optional (namespace this));
      Field "annotations" (VRef (annotations this));
      Field "labels" (VRef (labels this)) ].

(** [toJson()].  The literal lives in the store while the collaborators
    run and is unreachable afterwards. *)
Definition toJson : M doc :=
  w ← gets id;
  let sanitize := λ x, sanitizeValue x {| filterEmptyArrays := true;
                                          filterEmptyObjects := true |} in
  let '(l, h) := alloc (CObj (toJson_literal w)) (store w) in
  lift (resolve h (VRef l) ≫= sanitize).

(** The snapshot as the specification words it: start from
    [additionalAttributes], overwrite [name], [namespace], [annotations]
    and [labels] in that order with the typed fields, resolve, then
    sanitize with both filters enabled. *)
Definition merged_mapping (w : world) : gmap string value :=
  <["labels" := VRef (labels (self w))]>
    (<["annotations" := VRef (annotations (self w))]>
       (<["namespace" := value_of_optional (namespace (self w))]>
          (<["name" := value_of_optional (name (self w))]>
             (own_props (store w) (_additionalAttributes (self w)))))).

(** [sanitize(resolve(m))] for that mapping [m]. *)
Definition snapshot_by_spec (w : world) : result doc :=
  let l := fresh (dom (store w)) in
  match resolve (<[l := CObj (merged_mapping w)]> (store w)) (VRef l) with
  | Ok r => sanitizeValue r {| filterEmptyArrays := true;
                               filterEmptyObjects := true |}
  | Err e => Err e
  end.

(** Calls a client can make on a record. *)
Inductive op :=
  | AddLabel (k v : string)
  | AddAnnotation (k v : string)
  | Add (k : string) (v : value)
  | GetLabel (k : string)
  | ToJson.

Definition exec (o : op) : M unit :=
  match o with
  | AddLabel k v => addLabel k v
  | AddAnnotation k v => addAnnotation k v
  | Add k v => add k v
  | GetLabel k => _ ← getLabel k; mret tt
  | ToJson => _ ← toJson; mret tt
  end.

(** The world after a sequence of calls (a call that throws leaves the
    world as the throw found it). *)
Definition run (ops : list op) (w : world) : world :=
  foldl (λ w o, (exec o w).2) w ops.

End Collaborators.

(** ** The collaborators *)

Section Modelled.

(** Modelled from the spec: what a deferred value stands for, its
    concrete value or the failure of its producer. *)
Variable produce : nat → result doc.

Definition map_traverse {A B} (f : A → result B) (m : gmap string A)
  : result (gmap string B) :=
  map_fold (λ k a acc, b ← f a; r ← acc; mret (<[k := b]> r)) (mret ∅) m.

(** Modelled from the spec: [resolve] of [_resolve.ts], which is not among
    the sources.  A deferred value is replaced by its concrete value, a
    concrete scalar is returned as it is, and resolution recurses into
    mappings and sequences.  The recursion follows references, so on a
    cyclic value it does not end: [fuel] bounds the nesting depth and
    running out of it is the engine's [RangeError].  [Object.prototype]
    is a mapping without entries of its own, and a built-in function is
    concrete. *)
Fixpoint resolve_value (fuel : nat) (h : heap) (v : value) : result doc :=
  match v with
  | VUndefined => Ok DUndefined
  | VNull => Ok DNull
  | VBool b => Ok (DBool b)
  | VNum n => Ok (DNum n)
  | VStr s => Ok (DStr s)
  | VLazy t => produce t
  | VRef l =>
      match fuel with
      | 0 => Err RangeError
      | S fuel' =>
          match h !! l with
          | Some (CObject _ _ m) =>
              DObj <$> map_traverse (resolve_value fuel' h) m
          | Some (CArr vs) => DArr <$> mapM (resolve_value fuel' h) vs
          | None => Err (Thrown "no such object")
          end
      end
  | VObjectPrototype => Ok (DObj ∅)
  | VBuiltin k => Ok (DFun k)
  end.

(** Modelled from the spec: [resolve] of [_resolve.ts], called on a value
    of the store.  A chain of references without a cycle visits each
    object of the store at most once, so [size h] levels are enough for
    every acyclic value. *)
Definition resolve_modelled (h : heap) (v : value) : result doc :=
  resolve_value (size h) h v.

(** Modelled from the spec: [sanitizeValue] of [_util.ts], which is not
    among the sources.  Entries whose value is [undefined] are removed;
    entries whose value is an empty sequence or an empty mapping are
    removed when the matching flag is set; the rules apply at every depth,
    array elements included, and bottom-up, so that a mapping emptied by
    the removal of its entries is removed in turn. *)
Definition dropped (o : SanitizeOptions) (d : doc) : bool :=
  match d with
  | DUndefined => true
  | DArr [] => filterEmptyArrays o
  | DObj m => filterEmptyObjects o && bool_decide (size m = 0)
  | _ => false
  end.

Definition keep (o : SanitizeOptions) (d : doc) : option doc :=
  if dropped o d then None else Some d.

(** Modelled from the spec: the recursion of [sanitizeValue], children
    first. *)
Fixpoint sanitize_doc (o : SanitizeOptions) (d : doc) : doc :=
  match d with
  | DObj m => DObj (omap (λ x, keep o (sanitize_doc o x)) m)
  | DArr l => DArr (sanitize_doc o <$> l)
  | _ => d
  end.

(** Modelled from the spec: [sanitizeValue] of [_util.ts]; it does not
    throw. *)
Definition sanitizeValue_modelled (d : doc) (o : SanitizeOptions) : result doc :=
  Ok (sanitize_doc o d).

(** [toJson] with the collaborators as the specification describes them. *)
Definition toSnapshot : M doc :=
  toJson resolve_modelled sanitizeValue_modelled.

Definition run_modelled : list op → world → world :=
  run resolve_modelled sanitizeValue_modelled.

(** The store while the collaborators run. *)
Definition snapshot_store (w : world) : heap :=
  <[fresh (dom (store w)) := CObj (merged_mapping w)]> (store w).

(** What a returned snapshot holds under each key. *)
Definition snapshot_entry (w : world) (k : string) : option doc :=
  v ← merged_mapping w !! k;
  x ← result_to_option (resolve_value (size (store w)) (snapshot_store w) v);
  keep both_filters (sanitize_doc both_filters x).

End Modelled.

(** Reading a key of a returned document, [d[k]]. *)
Definition doc_get (d : doc) (k : string) : doc :=
  match d with
  | DObj m => default DUndefined (m !! k)
  | _ => DUndefined
  end.

Definition doc_has_key (d : doc) (k : string) : Prop :=
  match d with
  | DObj m => is_Some (m !! k)
  | _ => False
  end.

Definition doc_of_optional (s : option string) : doc :=
  match s with Some s => DStr s | None => DUndefined end.

(** The three objects of a record are in the store. *)
Definition wf (w : world) : Prop :=
  is_object (store w) (labels (self w)) ∧
  is_object (store w) (annotations (self w)) ∧
  is_object (store w) (_additionalAttributes (self w)).

(** An object as an object literal creates it and as nobody has frozen
    it. *)
Definition ordinary (h : heap) (l : loc) : Prop :=
  ∃ m, h !! l = Some (CObj m).

(** The keys under which [Object.prototype] holds a member. *)
Definition inherited_key (k : string) : Prop :=
  k = "__proto__" ∨ k ∈ object_prototype_members.

#[global] Instance inherited_key_dec k : Decision (inherited_key k).
Proof. unfold inherited_key. apply _. Defined.




(** The calls that only read. *)
Inductive query :=
  | QGetLabel (k : string)
  | QToJson.

Definition op_of_query (q : query) : op :=
  match q with
  | QGetLabel k => GetLabel k
  | QToJson => ToJson
  end.


(** Without an argument the constructor always succeeds: it allocates the
    options object, then the labels, then the annotations. *)
Definition default_world (h0 : heap) : world :=
  let o := fresh (dom h0) in
  let h1 := <[o := CObj ∅]> h0 in
  let lbl := fresh (dom h1) in
  let h2 := <[lbl := CObj ∅]> h1 in
  let ann := fresh (dom h2) in
  {| self := {| name := None; namespace := None; labels := lbl;
                annotations := ann; _additionalAttributes := o |};
     store := <[ann := CObj ∅]> h2 |}.

Definition reserved_keys : list string :=
  ["name"; "namespace"; "labels"; "annotations"].

(** The value a typed field contributes to the literal of [toJson]. *)
Definition typed_field (this : ApiObjectMetadataDefinition) (k : string)
  : value :=
  if decide (k = "name") then value_of_optional (name this)
  else if decide (k = "namespace") then value_of_optional (namespace this)
  else if decide (k = "annotations") then VRef (annotations this)
  else VRef (labels this).

(** The world the constructor builds from an options object without
    properties: it allocates the labels, then the annotations. *)
Definition empty_options_world (h0 : heap) (o : loc) : world :=
  let lbl := fresh (dom h0) in
  let h2 := <[lbl := CObj ∅]> h0 in
  let ann := fresh (dom h2) in
  {| self := {| name := None; namespace := None; labels := lbl;
                annotations := ann; _additionalAttributes := o |};
     store := <[ann := CObj ∅]> h2 |}.

(** A field declared as an optional object holds [undefined], [null] or a
    reference to an object. *)
Definition optional_object (h : heap) (v : value) : Prop :=
  v = VUndefined ∨ v = VNull ∨ ∃ l, v = VRef l ∧ is_object h l.

(** [o] is an [ApiObjectMetadata]: [name] and [namespace] are strings when
    present, [labels] and [annotations] are objects when present. *)
Definition options_typed (h : heap) (o : loc) : Prop :=
  is_object h o ∧
  is_Some (optional_string (get_prop h o "name")) ∧
  is_Some (optional_string (get_prop h o "namespace")) ∧
  optional_object h (get_prop h o "labels") ∧
  optional_object h (get_prop h o "annotations").

(** The argument of a constructor call: none, or an object of the
    declared type. *)
Definition options_given (h : heap) (options : option loc) : Prop :=
  match options with
  | Some o => options_typed h o
  | None => True
  end.

(** ** Reference chains

    What [resolve] walks through: the values held by a cell, the
    references between cells, and the chains of references that start at
    a location. *)
Definition cell_values (c : cell) : list value :=
  match c with
  | CObject _ _ m => (map_to_list m).*2
  | CArr vs => vs
  end.

Definition edge (h : heap) (l l' : loc) : Prop :=
  ∃ c, h !! l = Some c ∧ VRef l' ∈ cell_values c.

Inductive walk (h : heap) : loc → list loc → Prop :=
  | walk_one l c : h !! l = Some c → walk h l [l]
  | walk_step l l' p : edge h l l' → walk h l' p → walk h l (l :: p).

(** Every reference leads to a cell. *)
Definition closed (h : heap) : Prop :=
  ∀ l l', edge h l l' → is_Some (h !! l').

(** No chain of references from [l] comes back to a location it has
    visited. *)
Definition acyclic_from (h : heap) (l : loc) : Prop :=
  ∀ p, walk h l p → NoDup p.

(** A check on every value held in the store, and the three checks built
    on it: references lead to cells, deferred values can be produced, and
    references go down along a rank. *)
Definition heap_forallb (P : loc → value → bool) (h : heap) : bool :=
  forallb (λ lc, forallb (P lc.1) (cell_values lc.2)) (map_to_list h).

Definition closedb (h : heap) : bool :=
  heap_forallb (λ _ v, match v with
                       | VRef l' => bool_decide (is_Some (h !! l'))
                       | _ => true
                       end) h.

Definition tokens_resolveb (produce : nat → result doc) (h : heap) : bool :=
  heap_forallb (λ _ v, match v with
                       | VLazy t => bool_decide (is_Some (result_to_option (produce t)))
                       | _ => true
                       end) h.

Definition rankedb (rank : loc → nat) (h : heap) : bool :=
  heap_forallb (λ l v, match v with
                       | VRef l' => bool_decide (rank l' < rank l)
                       | _ => true
                       end) h.

(** ** Writes

    What a call assigns: the object, the key and the value. *)
Definition write_of (this : ApiObjectMetadataDefinition) (o : op)
  : option (loc * string * value) :=
  match o with
  | AddLabel k v => Some (labels this, k, VStr v)
  | AddAnnotation k v => Some (annotations this, k, VStr v)
  | Add k v => Some (_additionalAttributes this, k, v)
  | GetLabel _ | ToJson => None
  end.

(** The calls that hand an object or [null] to the setter of
    [__proto__]: only [add] can, the other two write strings. *)
Definition sets_prototype (o : op) : bool :=
  match o with
  | Add k v => bool_decide (k = "__proto__") && is_object_or_null v
  | _ => false
  end.

(** Such a call aimed at the object at [l]. *)
Definition prototype_write (this : ApiObjectMetadataDefinition) (l : loc)
    (o : op) : bool :=
  match write_of this o with
  | Some (l', _, _) => bool_decide (l' = l) && sets_prototype o
  | None => false
  end.

(** The entry a call assigns in the object at [l], if it writes there. *)
Definition write_to (this : ApiObjectMetadataDefinition) (l : loc) (o : op)
  : option (string * value) :=
  match write_of this o with
  | Some (l', k, v) => if decide (l' = l) then Some (k, v) else None
  | None => None
  end.

(** What an ordinary object without an own property [k] answers under
    [k]. *)
Definition from_object_prototype (k : string) : value :=
  match object_prototype_slot k with
  | Data v _ => v
  | ProtoAccessor => VObjectPrototype
  | Missing => VUndefined
  end.

(** The three objects of a record are ordinary. *)
Definition wf_ordinary (w : world) : Prop :=
  ordinary (store w) (labels (self w)) ∧
  ordinary (store w) (annotations (self w)) ∧
  ordinary (store w) (_additionalAttributes (self w)).

(** The own properties of an ordinary object after [o[k] = v], where [v]
    is no prototype for it: the key [__proto__] takes a value only where
    the object has it as an own property. *)
Definition assigned (m : gmap string value) (k : string) (v : value)
  : gmap string value :=
  if decide (k = "__proto__" ∧ m !! k = None) then m else <[k := v]> m.

Definition apply_write (m : gmap string value) (kv : option (string * value))
  : gmap string value :=
  match kv with
  | Some (k, v) => assigned m k v
  | None => m
  end.

(** The properties of the object at [l] after a sequence of calls, from
    its properties [m] before. *)
Definition props_after (this : ApiObjectMetadataDefinition) (l : loc)
    (ops : list op) (m : gmap string value) : gmap string value :=
  foldl (λ m o, apply_write m (write_to this l o)) m ops.

(** Two calls clash when they write the same key of the same object. *)
Definition clash (this : ApiObjectMetadataDefinition) (o1 o2 : op) : Prop :=
  match write_of this o1, write_of this o2 with
  | Some (l1, k1, _), Some (l2, k2, _) => l1 = l2 ∧ k1 = k2
  | _, _ => False
  end.

(** [undefined] or [null], what [??] replaces. *)
Definition nullish (v : value) : Prop := v = VUndefined ∨ v = VNull.

(** The same record in another state of the store. *)
Definition with_store (w : world) (h : heap) : world :=
  {| self := self w; store := h |}.

(** Every property of the object holds a string. *)
Definition string_valued (m : gmap string value) : Prop :=
  ∀ k v, m !! k = Some v → ∃ s, v = VStr s.

(** ** Concrete records *)

(** No deferred value can be produced. *)
Definition no_tokens (t : nat) : result doc := Err (Thrown "unresolved token").

(** [{ name: "foo", labels: { app: "bar" } }], with the labels object at
    location 1 and the options object at location 2. *)
Definition foo_heap : heap :=
  {[ 1%positive := CObj {[ "app" := VStr "bar" ]};
     2%positive := CObj {[ "name" := VStr "foo"; "labels" := VRef 1%positive ]} ]}.

Definition foo_world : world :=
  {| self := {| name := Some "foo"; namespace := None; labels := 1%positive;
                annotations := 3%positive;
                _additionalAttributes := 2%positive |};
     store := <[3%positive := CObj ∅]> foo_heap |}.



Definition empty_options_heap : heap := {[ 1%positive := CObj ∅ ]}.




(** [{ labels: Object.freeze({ app: "bar" }) }]: the caller has frozen
    the labels object. *)
Definition frozen_heap : heap :=
  {[ 1%positive := CObject VObjectPrototype true {[ "app" := VStr "bar" ]};
     2%positive := CObj {[ "labels" := VRef 1%positive ]} ]}.

Definition frozen_world : world :=
  {| self := {| name := None; namespace := None; labels := 1%positive;
                annotations := 3%positive;
                _additionalAttributes := 2%positive |};
     store := <[3%positive := CObj ∅]> frozen_heap |}.

(** Collaborators that throw. *)
Definition failing_resolve (h : heap) (v : value) : result doc :=
  Err (Thrown "cannot resolve").

Definition failing_sanitize (d : doc) (o : SanitizeOptions) : result doc :=
  Err (Thrown "cannot sanitize").

(** ** The store *)

Lemma alloc_fresh c h : h !! (alloc c h).1 = None.
Proof.
  unfold alloc; simpl. apply not_elem_of_dom. apply is_fresh.
Qed.

Lemma alloc_store c h : (alloc c h).2 = <[(alloc c h).1 := c]> h.
Proof. reflexivity. Qed.

Lemma is_object_alloc c h l : is_object h l → is_object (alloc c h).2 l.
Proof.
  intros (p & fz & m & Hm). exists p, fz, m.
  rewrite alloc_store, lookup_insert_ne; [done|].
  intros <-. rewrite alloc_fresh in Hm. discriminate.
Qed.

Lemma is_object_alloc_new m h : is_object (alloc (CObj m) h).2 (alloc (CObj m) h).1.
Proof. eexists _, _, m. rewrite alloc_store. apply lookup_insert_eq. Qed.

Lemma ordinary_is_object h l : ordinary h l → is_object h l.
Proof. intros [m Hm]. by eexists _, _, m. Qed.

Lemma own_props_object h l p fz m :
  h !! l = Some (CObject p fz m) → own_props h l = m.
Proof. unfold own_props. by intros ->. Qed.

Lemma proto_of_object h l p fz m :
  h !! l = Some (CObject p fz m) → proto_of h l = p.
Proof. unfold proto_of. by intros ->. Qed.

Lemma own_props_alloc c h l : is_object h l → own_props (alloc c h).2 l = own_props h l.
Proof.
  intros (p & fz & m & Hm). unfold own_props at 1.
  rewrite alloc_store, lookup_insert_ne.
  - by rewrite Hm, (own_props_object _ _ _ _ _ Hm).
  - intros <-. rewrite alloc_fresh in Hm. discriminate.
Qed.

(** *** Reads *)

Lemma inherited_object_prototype n h seen k :
  inherited n h seen VObjectPrototype k = object_prototype_slot k.
Proof. by destruct n. Qed.

Lemma inherited_null n h seen k : inherited n h seen VNull k = Missing.
Proof. by destruct n. Qed.

Lemma unseen_size (X seen : gset loc) l :
  l ∈ X → l ∉ seen → size (X ∖ ({[l]} ∪ seen)) < size (X ∖ seen).
Proof.
  intros HX Hseen. apply subset_size. split.
  - intros x. rewrite !elem_of_difference, elem_of_union, elem_of_singleton.
    tauto.
  - intros Hsub. specialize (Hsub l).
    rewrite !elem_of_difference, elem_of_union, elem_of_singleton in Hsub.
    tauto.
Qed.

(** The walk never runs out of fuel that covers the objects it has not
    seen. *)
Lemma inherited_fuel n n' h seen p k :
  size (dom h ∖ seen) ≤ n → size (dom h ∖ seen) ≤ n' →
  inherited n h seen p k = inherited n' h seen p k.
Proof.
  revert n' seen p. induction n as [|n IH]; intros n' seen p Hn Hn';
    destruct n' as [|n'], p as [| | | | | |l| |]; simpl; try done;
    case_decide as Hseen; try done;
    destruct (h !! l) as [[p' fz m| ]|] eqn:Hl; try done;
    destruct (m !! k); try done;
    assert (l ∈ dom h) as Hdom by (apply elem_of_dom; by eexists);
    pose proof (unseen_size (dom h) seen l Hdom Hseen); try lia.
  apply IH; lia.
Qed.

Lemma extends_refl h : extends h h.
Proof. split; [done|]. intros l c Hc Hn. congruence. Qed.

Lemma extends_trans h1 h2 h3 : extends h1 h2 → extends h2 h3 → extends h1 h3.
Proof.
  intros [H12 N12] [H23 N23]. split; [by etrans|].
  intros l c Hc Hn. destruct (h2 !! l) as [c'|] eqn:Hl2.
  - rewrite (lookup_weaken _ _ _ _ Hl2 H23) in Hc. injection Hc as <-.
    by eapply N12.
  - by eapply N23.
Qed.

Lemma extends_insert h l : h !! l = None → extends h (<[l := CObj ∅]> h).
Proof.
  intros Hl. split; [by apply insert_subseteq|].
  intros l' c. rewrite lookup_insert. case_decide; [|congruence].
  by intros [= <-].
Qed.

(** What a walk finds does not change when the store is extended. *)
Lemma inherited_extends n h h' seen p k :
  extends h h' → size (dom h' ∖ seen) ≤ n →
  inherited n h' seen p k = inherited n h seen p k.
Proof.
  intros [Hsub Hnew]. revert seen p.
  induction n as [|n IH]; intros seen p Hn;
    destruct p as [| | | | | |l| |]; simpl; try done;
    case_decide as Hseen; try done;
    (destruct (h !! l) as [c|] eqn:Hl;
     [rewrite (lookup_weaken _ _ _ _ Hl Hsub)
     |destruct (h' !! l) as [c|] eqn:Hl'; [rewrite (Hnew _ _ Hl' Hl)|done]]);
    try (assert (l ∈ dom h') as Hdom
           by (apply elem_of_dom; rewrite ?(lookup_weaken _ _ _ _ Hl Hsub);
               by eexists);
         pose proof (unseen_size (dom h') seen l Hdom Hseen)).
  - destruct c as [p' fz m|]; [|done]. destruct (m !! k); [done|lia].
  - rewrite lookup_empty. lia.
  - destruct c as [p' fz m|]; [|done]. destruct (m !! k); [done|].
    apply IH. lia.
  - rewrite lookup_empty. apply inherited_object_prototype.
Qed.

Lemma own_props_extends h h' l : extends h h' → own_props h' l = own_props h l.
Proof.
  intros [Hsub Hnew]. unfold own_props.
  destruct (h !! l) as [c|] eqn:Hl.
  - by rewrite (lookup_weaken _ _ _ _ Hl Hsub).
  - destruct (h' !! l) as [c|] eqn:Hl'; [|done]. by rewrite (Hnew _ _ Hl' Hl).
Qed.

Lemma proto_of_extends h h' l : extends h h' → proto_of h' l = proto_of h l.
Proof.
  intros [Hsub Hnew]. unfold proto_of.
  destruct (h !! l) as [c|] eqn:Hl.
  - by rewrite (lookup_weaken _ _ _ _ Hl Hsub).
  - destruct (h' !! l) as [c|] eqn:Hl'; [|done]. by rewrite (Hnew _ _ Hl' Hl).
Qed.

Lemma size_unseen (h : heap) (seen : gset loc) : size (dom h ∖ seen) ≤ size h.
Proof.
  rewrite <- (size_dom (D := gset loc) h).
  apply subseteq_size. intros x. rewrite elem_of_difference. tauto.
Qed.

(** A read returns the same value in the extended store. *)
Lemma get_prop_extends h h' l k : extends h h' → get_prop h' l k = get_prop h l k.
Proof.
  intros Hext. unfold get_prop.
  rewrite (own_props_extends h h'), (proto_of_extends h h') by done.
  destruct (own_props h l !! k); [done|].
  rewrite (inherited_extends _ h h') by (done || apply size_unseen).
  rewrite (inherited_fuel (size h') (size h)); [done|..].
  - etrans; [apply size_unseen|]. apply map_subseteq_size, Hext.
  - apply size_unseen.
Qed.

Lemma is_object_extends h h' l : extends h h' → is_object h l → is_object h' l.
Proof.
  intros [Hsub _] (p & fz & m & Hm). exists p, fz, m. by eapply lookup_weaken.
Qed.


(** An object with the prototype of an object literal answers with its
    own property or with the member of [Object.prototype]. *)
Lemma get_prop_object_prototype h l k :
  proto_of h l = VObjectPrototype →
  get_prop h l k = default (from_object_prototype k) (own_props h l !! k).
Proof.
  intros Hp. unfold get_prop, from_object_prototype.
  destruct (own_props h l !! k); [done|].
  by rewrite Hp, inherited_object_prototype.
Qed.

Lemma from_object_prototype_other k :
  ¬ inherited_key k → from_object_prototype k = VUndefined.
Proof.
  unfold inherited_key, from_object_prototype, object_prototype_slot.
  intros Hk. case_decide; [tauto|].
  case_bool_decide; [tauto|done].
Qed.

Lemma get_prop_empty h l k :
  h !! l = Some (CObj ∅) → get_prop h l k = from_object_prototype k.
Proof.
  intros Hl. rewrite get_prop_object_prototype
    by by rewrite (proto_of_object _ _ _ _ _ Hl).
  by rewrite (own_props_object _ _ _ _ _ Hl), lookup_empty.
Qed.

(** *** Writes *)

Lemma set_prototype_cases h l p fz m v h' :
  set_prototype h l p fz m v = Ok h' →
  h' = h ∨ (fz = false ∧ h' = <[l := CObject v false m]> h).
Proof.
  unfold set_prototype. destruct (is_object_or_null v); [|by left; congruence].
  case_decide; [by left; congruence|].
  destruct fz; [discriminate|].
  destruct (on_chain _ _ _ _ _); [discriminate|].
  intros [= <-]. by right.
Qed.

(** An assignment changes at most the object it is aimed at, and of that
    object at most the prototype or the property under the key; a frozen
    object stays as it is. *)
Lemma set_prop_cases h l k v h' :
  set_prop h l k v = Ok h' →
  h' = h ∨
  ∃ p m p' m', h !! l = Some (CObject p false m) ∧
               h' = <[l := CObject p' false m']> h ∧
               ∀ k', k' ≠ k → m' !! k' = m !! k'.
Proof.
  unfold set_prop. destruct (h !! l) as [[p fz m|]|] eqn:Hl;
    [|by left; congruence..].
  assert (Hdefine :
    (if fz then Err TypeError
     else Ok (<[l := CObject p fz (<[k := v]> m)]> h)) = Ok h' →
    h' = h ∨
    ∃ p0 m0 p' m', Some (CObject p fz m) = Some (CObject p0 false m0) ∧
                   h' = <[l := CObject p' false m']> h ∧
                   ∀ k', k' ≠ k → m' !! k' = m0 !! k').
  { destruct fz; [discriminate|]. intros [= <-]. right.
    exists p, m, p, (<[k := v]> m). repeat split.
    intros k' Hk'. by rewrite lookup_insert_ne. }
  cbv zeta. destruct (m !! k); [exact Hdefine|].
  destruct (inherited _ _ _ _ _) as [|x [|]|]; try exact Hdefine;
    [discriminate|].
  intros Hset. apply set_prototype_cases in Hset as [->|[-> ->]]; [by left|].
  right. by exists p, m, v, m.
Qed.

Lemma written_cases h l k v :
  written h l k v = h ∨
  ∃ p m p' m', h !! l = Some (CObject p false m) ∧
               written h l k v = <[l := CObject p' false m']> h ∧
               ∀ k', k' ≠ k → m' !! k' = m !! k'.
Proof.
  unfold written. destruct (set_prop h l k v) as [h'|e] eqn:Hset; [|by left].
  by apply (set_prop_cases h l k v).
Qed.

Lemma lookup_written_ne h l l' k v : l' ≠ l → written h l k v !! l' = h !! l'.
Proof.
  intros Hne.
  destruct (written_cases h l k v) as [->|(p & m & p' & m' & _ & -> & _)];
    [done|].
  by rewrite lookup_insert_ne.
Qed.

Lemma written_dom h l k v : dom (written h l k v) = dom h.
Proof.
  destruct (written_cases h l k v) as [->|(p & m & p' & m' & Hl & -> & _)];
    [done|].
  apply dom_insert_lookup_L. by eexists.
Qed.

Lemma is_object_written h l l' k v :
  is_object h l' → is_object (written h l k v) l'.
Proof.
  intros (p0 & fz0 & m0 & Hm).
  destruct (written_cases h l k v) as [->|(p & m & p' & m' & Hl & -> & _)];
    [by eexists _, _, _|].
  destruct (decide (l' = l)) as [->|Hne].
  - eexists _, _, _. apply lookup_insert_eq.
  - exists p0, fz0, m0. by rewrite lookup_insert_ne.
Qed.



(** On an ordinary object every key but [__proto__] takes the value. *)
Lemma set_prop_ordinary h l k v m :
  h !! l = Some (CObj m) → k ≠ "__proto__" →
  set_prop h l k v = Ok (<[l := CObj (<[k := v]> m)]> h).
Proof.
  intros Hl Hk. unfold set_prop. rewrite Hl. cbv zeta.
  destruct (m !! k); [done|].
  rewrite inherited_object_prototype. unfold object_prototype_slot.
  case_decide; [done|]. by case_bool_decide.
Qed.

(** What any assignment but one of a prototype does to an ordinary
    object. *)
Lemma set_prop_assigned h l k v m :
  h !! l = Some (CObj m) →
  (k = "__proto__" → is_object_or_null v = false) →
  set_prop h l k v = Ok (<[l := CObj (assigned m k v)]> h).
Proof.
  intros Hl Hv. unfold assigned. destruct (decide (k = "__proto__")) as [->|Hk].
  - unfold set_prop. rewrite Hl. cbv zeta.
    destruct (m !! "__proto__") eqn:Hm.
    + rewrite decide_False by (intros [_ ?]; congruence). done.
    + rewrite decide_True by done.
      rewrite inherited_object_prototype. simpl.
      unfold set_prototype. rewrite Hv by done.
      by rewrite insert_id.
  - rewrite decide_False by tauto. by apply set_prop_ordinary.
Qed.

Lemma written_assigned h l k v m :
  h !! l = Some (CObj m) →
  (k = "__proto__" → is_object_or_null v = false) →
  written h l k v = <[l := CObj (assigned m k v)]> h.
Proof. intros Hl Hv. unfold written. by rewrite (set_prop_assigned _ _ _ _ m). Qed.

Lemma written_ordinary h l k v m :
  h !! l = Some (CObj m) → k ≠ "__proto__" →
  written h l k v = <[l := CObj (<[k := v]> m)]> h.
Proof. intros Hl Hk. unfold written. by rewrite (set_prop_ordinary _ _ _ _ m). Qed.


(** A frozen object takes no write. *)
Lemma written_frozen h l k v p m :
  h !! l = Some (CObject p true m) → written h l k v = h.
Proof.
  intros Hl.
  destruct (written_cases h l k v) as [->|(p0 & m0 & p' & m' & Hm & _)];
    [done|congruence].
Qed.

(** *** The methods, one by one *)

Lemma assign_eq l k v w :
  assign l k v w =
  match set_prop (store w) l k v with
  | Ok h' => (Ok tt, {| self := self w; store := h' |})
  | Err e => (Err e, w)
  end.
Proof.
  unfold assign, gets, lift, modify_store, mbind, M_mbind, m_bind.
  by destruct (set_prop _ _ _ _).
Qed.

Lemma assign_world l k v w :
  (assign l k v w).2 = with_store w (written (store w) l k v).
Proof.
  rewrite assign_eq. unfold written, with_store.
  destruct (set_prop _ _ _ _); [done|]. by destruct w.
Qed.


Lemma addAnnotation_world k v w :
  (addAnnotation k v w).2
  = with_store w (written (store w) (annotations (self w)) k (VStr v)).
Proof. apply assign_world. Qed.

Lemma add_world k v w :
  (add k v w).2
  = with_store w (written (store w) (_additionalAttributes (self w)) k v).
Proof. apply assign_world. Qed.

Lemma getLabel_eq k w :
  getLabel k w = (Ok (get_prop (store w) (labels (self w)) k), w).
Proof. reflexivity. Qed.

Lemma toJson_literal_merged w : toJson_literal w = merged_mapping w.
Proof.
  unfold toJson_literal, merged_mapping, object_literal. simpl.
  by rewrite (right_id_L ∅ (∪)).
Qed.

Section Generic.

Variable resolve : heap → value → result doc.
Variable sanitizeValue : doc → SanitizeOptions → result doc.

Lemma toJson_eq w :
  toJson resolve sanitizeValue w = (snapshot_by_spec resolve sanitizeValue w, w).
Proof.
  unfold toJson, snapshot_by_spec, alloc, lift, gets, mbind, M_mbind, m_bind.
  simpl. rewrite toJson_literal_merged.
  by destruct (resolve _ _).
Qed.

Lemma exec_ToJson w : (exec resolve sanitizeValue ToJson w).2 = w.
Proof.
  unfold exec, mbind, M_mbind, m_bind. rewrite toJson_eq.
  by destruct (snapshot_by_spec _ _ _).
Qed.

(** A call changes the world by the assignment it makes, if any. *)
Lemma exec_world o w :
  (exec resolve sanitizeValue o w).2 =
  match write_of (self w) o with
  | Some (l, k, v) => with_store w (written (store w) l k v)
  | None => w
  end.
Proof.
  destruct o; [apply assign_world..|reflexivity|apply exec_ToJson].
Qed.

Lemma exec_self o w : self (exec resolve sanitizeValue o w).2 = self w.
Proof.
  rewrite exec_world. by destruct (write_of (self w) o) as [[[l k] v]|].
Qed.

Lemma exec_store o w :
  store (exec resolve sanitizeValue o w).2 =
  match write_of (self w) o with
  | Some (l, k, v) => written (store w) l k v
  | None => store w
  end.
Proof.
  rewrite exec_world. by destruct (write_of (self w) o) as [[[l k] v]|].
Qed.

Lemma run_cons o ops w :
  run resolve sanitizeValue (o :: ops) w =
  run resolve sanitizeValue ops (exec resolve sanitizeValue o w).2.
Proof. reflexivity. Qed.

Lemma run_self ops w : self (run resolve sanitizeValue ops w) = self w.
Proof.
  revert w. induction ops as [|o ops IH]; intros w; [done|].
  by rewrite run_cons, IH, exec_self.
Qed.

Lemma run_queries qs w :
  run resolve sanitizeValue (op_of_query <$> qs) w = w.
Proof.
  revert w. induction qs as [|q qs IH]; intros w; [done|].
  rewrite fmap_cons, run_cons, IH. destruct q; [done|apply exec_ToJson].
Qed.

Lemma exec_is_object o w l :
  is_object (store w) l → is_object (store (exec resolve sanitizeValue o w).2) l.
Proof.
  intros Hl. rewrite exec_store.
  destruct (write_of (self w) o) as [[[l' k] v]|]; [|done].
  by apply is_object_written.
Qed.

Lemma exec_wf o w : wf w → wf (exec resolve sanitizeValue o w).2.
Proof.
  intros (Hl & Ha & Hx). unfold wf. rewrite exec_self.
  repeat split; by apply exec_is_object.
Qed.

Lemma run_wf ops w : wf w → wf (run resolve sanitizeValue ops w).
Proof.
  revert w. induction ops as [|o ops IH]; intros w Hw; [done|].
  rewrite run_cons. by apply IH, exec_wf.
Qed.



(** An ordinary object stays ordinary under every call that does not
    give it a prototype, and takes the entry the call assigns. *)
Lemma exec_ordinary o w l m :
  store w !! l = Some (CObj m) →
  prototype_write (self w) l o = false →
  store (exec resolve sanitizeValue o w).2 !! l
  = Some (CObj (apply_write m (write_to (self w) l o))).
Proof.
  intros Hl Hp. rewrite exec_store. unfold prototype_write, write_to in *.
  destruct (write_of (self w) o) as [[[l' k] v]|] eqn:Hw; [|done].
  case_decide as Hll; [subst l'|by rewrite lookup_written_ne].
  rewrite bool_decide_eq_true_2 in Hp by done. simpl in *.
  rewrite (written_assigned _ _ _ _ m), ?lookup_insert_eq; try done.
  intros Hk. subst k. destruct o; simpl in *; try done;
    injection Hw as _ Hk Hv; subst; [done..|].
  by rewrite bool_decide_eq_true_2 in Hp.
Qed.

Lemma run_ordinary ops w l m :
  store w !! l = Some (CObj m) →
  Forall (λ o, prototype_write (self w) l o = false) ops →
  store (run resolve sanitizeValue ops w) !! l
  = Some (CObj (props_after (self w) l ops m)).
Proof.
  revert w m. induction ops as [|o ops IH]; intros w m Hl Hops; [done|].
  apply Forall_cons in Hops as [Ho Hops]. rewrite run_cons.
  rewrite (IH _ (apply_write m (write_to (self w) l o))).
  - by rewrite exec_self.
  - by apply exec_ordinary.
  - by rewrite exec_self.
Qed.

End Generic.

(** ** The constructor *)

Lemma object_or_fresh_spec v h l h' :
  object_or_fresh v h = Some (l, h') →
  is_object h' l ∧ ∀ l0, is_object h l0 → is_object h' l0.
Proof.
  unfold object_or_fresh. intros Hv.
  assert (Hfresh : Some (alloc (CObj ∅) h) = Some (l, h') →
    is_object h' l ∧ ∀ l0, is_object h l0 → is_object h' l0).
  { intros [= <- <-]. split.
    - apply (is_object_alloc_new ∅ h).
    - intros l0 Hl0. by apply (is_object_alloc (CObj ∅) h). }
  destruct v as [| | | | | |l1| |]; try discriminate; try by apply Hfresh.
  destruct (h !! l1) as [[p fz m|vs]|] eqn:Hl1; try discriminate.
  injection Hv as <- <-. split; [by exists p, fz, m|done].
Qed.

Lemma new_inv options h0 w :
  new_ApiObjectMetadataDefinition options h0 = Some w →
  ∃ o h1 lbl h2 ann h3 nm ns,
    (o, h1) = match options with
              | Some o => (o, h0)
              | None => alloc (CObj ∅) h0
              end ∧
    is_object h1 o ∧
    optional_string (get_prop h1 o "name") = Some nm ∧
    object_or_fresh (get_prop h1 o "labels") h1 = Some (lbl, h2) ∧
    object_or_fresh (get_prop h2 o "annotations") h2 = Some (ann, h3) ∧
    optional_string (get_prop h3 o "namespace") = Some ns ∧
    w = {| self := {| name := nm; namespace := ns; labels := lbl;
                      annotations := ann; _additionalAttributes := o |};
           store := h3 |}.
Proof.
  unfold new_ApiObjectMetadataDefinition.
  destruct (match options with Some o => (o, h0) | None => alloc (CObj ∅) h0 end)
    as [o h1].
  destruct (h1 !! o) as [[p fz m|vs]|] eqn:Ho; try discriminate.
  destruct (optional_string (get_prop h1 o "name")) as [nm|] eqn:Hnm;
    [simpl|discriminate].
  destruct (object_or_fresh (get_prop h1 o "labels") h1) as [[lbl h2]|] eqn:Hl;
    [simpl|discriminate].
  destruct (object_or_fresh (get_prop h2 o "annotations") h2) as [[ann h3]|]
    eqn:Ha; [simpl|discriminate].
  destruct (optional_string (get_prop h3 o "namespace")) as [ns|] eqn:Hns;
    [simpl|discriminate].
  intros [= <-]. exists o, h1, lbl, h2, ann, h3, nm, ns.
  repeat split; try done. by exists p, fz, m.
Qed.

Lemma new_wf options h0 w :
  new_ApiObjectMetadataDefinition options h0 = Some w → wf w.
Proof.
  intros (o & h1 & lbl & h2 & ann & h3 & nm & ns & _ & Ho & _ & Hl & Ha & _ & ->)
    %new_inv.
  apply object_or_fresh_spec in Hl as [Hl Hl'].
  apply object_or_fresh_spec in Ha as [Ha Ha'].
  repeat split; simpl; auto.
Qed.

Lemma lookup_insert_fresh (h : heap) l c c' :
  h !! l = Some c → <[fresh (dom h) := c']> h !! l = Some c.
Proof.
  intros Hl. rewrite lookup_insert_ne; [done|].
  intros <-. pose proof (is_fresh (dom h)) as Hf.
  apply not_elem_of_dom in Hf. congruence.
Qed.

Lemma new_default h0 :
  new_ApiObjectMetadataDefinition None h0 = Some (default_world h0).
Proof.
  unfold new_ApiObjectMetadataDefinition, default_world, alloc.
  set (o := fresh (dom h0)). set (h1 := <[o := CObj ∅]> h0).
  assert (Ho : h1 !! o = Some (CObj ∅)) by apply lookup_insert_eq.
  rewrite Ho. rewrite !(get_prop_empty _ _ _ Ho). simpl.
  unfold alloc.
  set (lbl := fresh (dom h1)). set (h2 := <[lbl := CObj ∅]> h1).
  assert (Ho2 : h2 !! o = Some (CObj ∅)) by by apply lookup_insert_fresh.
  rewrite (get_prop_empty _ _ _ Ho2). simpl. unfold alloc.
  set (ann := fresh (dom h2)). set (h3 := <[ann := CObj ∅]> h2).
  assert (Ho3 : h3 !! o = Some (CObj ∅)) by by apply lookup_insert_fresh.
  by rewrite (get_prop_empty _ _ _ Ho3).
Qed.

(** ** Traversals *)

Lemma map_traverse_empty {A B} (f : A → result B) : map_traverse f ∅ = Ok ∅.
Proof. unfold map_traverse. by rewrite map_fold_empty. Qed.

Lemma map_traverse_inv {A B} (f : A → result B) m r :
  map_traverse f m = Ok r →
  ∀ k, match m !! k with
       | Some a => ∃ b, f a = Ok b ∧ r !! k = Some b
       | None => r !! k = None
       end.
Proof.
  unfold map_traverse. revert r.
  apply (map_fold_weak_ind (λ acc m, ∀ r, acc = Ok r →
    ∀ k, match m !! k with
         | Some a => ∃ b, f a = Ok b ∧ r !! k = Some b
         | None => r !! k = None
         end)).
  - intros r [= <-] k. by rewrite !lookup_empty.
  - intros i x m' acc Hi IH r Hr k.
    destruct (f x) as [b|e] eqn:Hfx; [|discriminate].
    destruct acc as [r'|e]; [|discriminate].
    injection Hr as <-. rewrite !lookup_insert.
    case_decide; subst; [by exists b|by apply IH].
Qed.

Lemma map_traverse_lookup {A B} (f : A → result B) m r :
  map_traverse f m = Ok r →
  ∀ k, r !! k = m !! k ≫= (λ a, result_to_option (f a)).
Proof.
  intros Hr k. pose proof (map_traverse_inv f m r Hr k) as Hk.
  destruct (m !! k) as [a|]; [|done].
  destruct Hk as (b & Hb & ->). simpl. by rewrite Hb.
Qed.

Lemma map_traverse_ok {A B} (f : A → result B) m :
  (∀ k a, m !! k = Some a → ∃ b, f a = Ok b) →
  ∃ r, map_traverse f m = Ok r.
Proof.
  unfold map_traverse.
  apply (map_fold_weak_ind (λ acc m,
    (∀ k a, m !! k = Some a → ∃ b, f a = Ok b) → ∃ r, acc = Ok r)).
  - by eexists.
  - intros i x m' acc Hi IH Hall.
    destruct (Hall i x) as [b Hb]; [apply lookup_insert_eq|].
    destruct IH as [r ->].
    { intros k a Hk. apply (Hall k). rewrite lookup_insert_ne; [done|].
      intros <-. congruence. }
    rewrite Hb. by eexists.
Qed.

(** A traversal that succeeds is determined by its successes entry by
    entry. *)
Lemma map_traverse_ext {A B} (f g : A → result B) m r :
  (∀ a b, f a = Ok b → g a = Ok b) →
  map_traverse f m = Ok r → map_traverse g m = Ok r.
Proof.
  intros Hfg Hf. pose proof (map_traverse_inv f m r Hf) as Hinv.
  destruct (map_traverse_ok g m) as [r' Hg].
  { intros k a Hk. specialize (Hinv k). rewrite Hk in Hinv.
    destruct Hinv as (b & Hb & _). exists b. by apply Hfg. }
  rewrite Hg. f_equal. apply map_eq. intros k.
  pose proof (map_traverse_inv g m r' Hg k) as Hk'. specialize (Hinv k).
  destruct (m !! k) as [a|]; [|congruence].
  destruct Hinv as (b & Hb & ->). destruct Hk' as (b' & Hb' & ->).
  apply Hfg in Hb. congruence.
Qed.

Lemma mapM_result_ext {A B} (f g : A → result B) l r :
  (∀ a b, f a = Ok b → g a = Ok b) →
  mapM f l = Ok r → mapM g l = Ok r.
Proof.
  intros Hfg. revert r. induction l as [|x l IH]; intros r; [done|].
  simpl. destruct (f x) as [b|] eqn:Hfx; [simpl|discriminate].
  rewrite (Hfg _ _ Hfx). simpl.
  destruct (mapM f l) as [k|]; [simpl|discriminate].
  by rewrite (IH k eq_refl).
Qed.

(** ** The modelled collaborators *)

Section ModelledFacts.

Variable produce : nat → result doc.

Lemma resolve_value_optional n h s :
  resolve_value produce n h (value_of_optional s) = Ok (doc_of_optional s).
Proof. by destruct n, s. Qed.

Lemma resolve_value_empty_object n h l :
  h !! l = Some (CObj ∅) → resolve_value produce (S n) h (VRef l) = Ok (DObj ∅).
Proof. intros Hl. simpl. by rewrite Hl, map_traverse_empty. Qed.

(** More fuel never changes a document that was returned. *)
Lemma resolve_value_S n h v d :
  resolve_value produce n h v = Ok d → resolve_value produce (S n) h v = Ok d.
Proof.
  revert v d. induction n as [|n IH]; intros v d.
  - by destruct v.
  - destruct v as [| | | | | |l| |]; try done.
    intros Hd. simpl in Hd. change (resolve_value produce (S (S n)) h (VRef l))
      with (match h !! l with
            | Some (CObject _ _ m) =>
                DObj <$> map_traverse (resolve_value produce (S n) h) m
            | Some (CArr vs) => DArr <$> mapM (resolve_value produce (S n) h) vs
            | None => Err (Thrown "no such object")
            end).
    destruct (h !! l) as [[p fz m|vs]|]; [| |done].
    + destruct (map_traverse _ m) as [r|] eqn:Hr; [|discriminate].
      by rewrite (map_traverse_ext _ _ _ _ IH Hr).
    + destruct (mapM _ vs) as [r|] eqn:Hr; [|discriminate].
      by rewrite (mapM_result_ext _ _ _ _ IH Hr).
Qed.

Lemma resolve_value_mono n n' h v d :
  n ≤ n' → resolve_value produce n h v = Ok d →
  resolve_value produce n' h v = Ok d.
Proof. induction 1; [done|]. intros. by apply resolve_value_S, IHle. Qed.

Lemma toSnapshot_eq w :
  toSnapshot produce w =
  (snapshot_by_spec (resolve_modelled produce) sanitizeValue_modelled w, w).
Proof. apply toJson_eq. Qed.

Lemma snapshot_store_lookup w l c :
  store w !! l = Some c → snapshot_store w !! l = Some c.
Proof. apply lookup_insert_fresh. Qed.

Lemma snapshot_unfold w :
  snapshot_by_spec (resolve_modelled produce) sanitizeValue_modelled w =
  (m ← map_traverse (resolve_value produce (size (store w)) (snapshot_store w))
         (merged_mapping w);
   Ok (sanitize_doc both_filters (DObj m))).
Proof.
  unfold snapshot_by_spec, resolve_modelled, sanitizeValue_modelled.
  fold (snapshot_store w). unfold snapshot_store at 1.
  rewrite map_size_insert_None
    by (apply not_elem_of_dom, is_fresh).
  fold (snapshot_store w). simpl.
  unfold snapshot_store at 1. rewrite lookup_insert_eq.
  fold (snapshot_store w).
  by destruct (map_traverse _ _).
Qed.

Lemma toSnapshot_lookup w d :
  (toSnapshot produce w).1 = Ok d →
  ∃ m, d = DObj m ∧ ∀ k, m !! k = snapshot_entry produce w k.
Proof.
  rewrite toSnapshot_eq, snapshot_unfold. simpl.
  destruct (map_traverse _ _) as [r|] eqn:Hr; [simpl|discriminate].
  intros [= <-]. eexists; split; [done|]. intros k.
  unfold snapshot_entry. rewrite lookup_omap.
  rewrite (map_traverse_lookup _ _ _ Hr k).
  by destruct (merged_mapping w !! k).
Qed.

Lemma toSnapshot_ok w :
  (∀ k v, merged_mapping w !! k = Some v →
     ∃ d, resolve_value produce (size (store w)) (snapshot_store w) v = Ok d) →
  ∃ d, (toSnapshot produce w).1 = Ok d.
Proof.
  intros Hall. rewrite toSnapshot_eq, snapshot_unfold. simpl.
  destruct (map_traverse_ok _ _ Hall) as [r ->]. by eexists.
Qed.

End ModelledFacts.

(** ** [resolve] returns on acyclic values *)

Lemma allocated_length (h : heap) (p : list loc) :
  NoDup p → (∀ x, x ∈ p → is_Some (h !! x)) → length p ≤ size h.
Proof.
  intros Hnd Hall. rewrite <- (size_dom (D := gset loc)).
  unfold size, set_size. simpl.
  apply submseteq_length, NoDup_submseteq; [done|].
  intros x Hx. apply elem_of_elements, elem_of_dom. by apply Hall.
Qed.

Lemma mapM_result_ok {A B} (f : A → result B) l :
  (∀ a, a ∈ l → ∃ b, f a = Ok b) → ∃ r, mapM f l = Ok r.
Proof.
  induction l as [|x l IH]; intros Hall; [by eexists|].
  destruct (Hall x) as [b Hb]; [left|].
  destruct IH as [r Hr]; [intros a Ha; apply Hall; by right|].
  simpl. rewrite Hb. simpl. rewrite Hr. by eexists.
Qed.

Lemma heap_forallb_spec P h l c v :
  heap_forallb P h = true → h !! l = Some c → v ∈ cell_values c →
  P l v = true.
Proof.
  unfold heap_forallb. rewrite forallb_forall. intros Hall Hl Hv.
  specialize (Hall (l, c)). simpl in Hall. rewrite forallb_forall in Hall.
  apply Hall; [|by apply list_elem_of_In].
  by apply list_elem_of_In, elem_of_map_to_list.
Qed.

Lemma closedb_closed h : closedb h = true → closed h.
Proof.
  intros Hb l l' (c & Hl & Hv).
  pose proof (heap_forallb_spec _ _ _ _ _ Hb Hl Hv) as Hp. simpl in Hp.
  by apply bool_decide_eq_true in Hp.
Qed.

(** References that go down along a rank cannot come back. *)
Lemma rankedb_acyclic rank h l : rankedb rank h = true → acyclic_from h l.
Proof.
  intros Hb p Hp.
  cut (NoDup p ∧ ∀ x, x ∈ p → rank x ≤ rank l); [by intros []|].
  induction Hp as [l c Hl|l l' p (c & Hl & Hv) Hp [IHnd IHrank]].
  - split; [apply NoDup_singleton|].
    by intros x ->%list_elem_of_singleton.
  - pose proof (heap_forallb_spec _ _ _ _ _ Hb Hl Hv) as Hlt. simpl in Hlt.
    apply bool_decide_eq_true in Hlt. split.
    + apply NoDup_cons. split; [|done].
      intros Hin%IHrank. lia.
    + intros x [->|Hx%IHrank]%elem_of_cons; lia.
Qed.

Section Termination.

Variable produce : nat → result doc.

(** With [pre] the locations already on the way down, the fuel that is
    left covers every chain that does not repeat a location. *)
Lemma resolve_value_acyclic h n :
  closed h → tokens_resolveb produce h = true →
  ∀ l pre,
    is_Some (h !! l) →
    (∀ p, walk h l p → NoDup (pre ++ p)) →
    (∀ x, x ∈ pre → is_Some (h !! x)) →
    size h ≤ length pre + n →
    ∃ d, resolve_value produce n h (VRef l) = Ok d.
Proof.
  intros Hclosed Htokens.
  induction n as [|n IH]; intros l pre [c Hl] Hwalk Hpre Hsz.
  - exfalso. pose proof (Hwalk [l] (walk_one h l c Hl)) as Hnd.
    apply (allocated_length h) in Hnd.
    + rewrite length_app in Hnd. simpl in Hnd. lia.
    + intros x [Hx|Hx%list_elem_of_singleton]%elem_of_app;
        [by apply Hpre|subst; by eexists].
  - assert (Hchild : ∀ v, v ∈ cell_values c →
      ∃ d, resolve_value produce n h v = Ok d).
    { intros v Hv. destruct v as [| | | | |t|l'| |];
        try (destruct n; by eexists).
      - pose proof (heap_forallb_spec _ _ _ _ _ Htokens Hl Hv) as Ht.
        simpl in Ht. apply bool_decide_eq_true in Ht as [d Hd].
        exists d. destruct (produce t) eqn:Hpt; [|discriminate].
        injection Hd as ->. by destruct n.
      - assert (Hedge : edge h l l') by by exists c.
        apply (IH l' (pre ++ [l])).
        + by apply Hclosed in Hedge.
        + intros p Hp. rewrite <- app_assoc. simpl.
          apply Hwalk. by eapply walk_step.
        + intros x [Hx|Hx%list_elem_of_singleton]%elem_of_app;
            [by apply Hpre|subst; by eexists].
        + rewrite length_app. simpl. lia. }
    simpl. rewrite Hl. destruct c as [p fz m|vs]; simpl in Hchild.
    + destruct (map_traverse_ok (resolve_value produce n h) m) as [r ->];
        [|by eexists].
      intros k v Hk. apply Hchild.
      apply list_elem_of_fmap. exists (k, v). split; [done|].
      by apply elem_of_map_to_list.
    + destruct (mapM_result_ok (resolve_value produce n h) vs Hchild)
        as [r ->]. by eexists.
Qed.

(** [size h] levels are enough: on a closed store whose deferred values
    can be produced, [resolve] returns a document for every value without
    a reference cycle. *)
Lemma resolve_modelled_returns h l :
  closed h → tokens_resolveb produce h = true →
  is_Some (h !! l) → acyclic_from h l →
  ∃ d, resolve_modelled produce h (VRef l) = Ok d.
Proof.
  intros Hclosed Htokens Hl Hacyclic. unfold resolve_modelled.
  apply (resolve_value_acyclic h (size h) Hclosed Htokens l []); try done.
  intros x Hx. by apply elem_of_nil in Hx.
Qed.

(** So does the snapshot of a record whose literal reaches no cycle. *)
Lemma toSnapshot_returns w :
  closed (snapshot_store w) →
  tokens_resolveb produce (snapshot_store w) = true →
  acyclic_from (snapshot_store w) (fresh (dom (store w))) →
  ∃ d, toSnapshot produce w = (Ok d, w).
Proof.
  intros Hclosed Htokens Hacyclic. rewrite toSnapshot_eq.
  unfold snapshot_by_spec. fold (snapshot_store w).
  destruct (resolve_modelled_returns (snapshot_store w)
              (fresh (dom (store w))) Hclosed Htokens) as [d ->];
    [|done|by eexists].
  unfold snapshot_store. rewrite lookup_insert_eq. by eexists.
Qed.

End Termination.

(** ** The snapshot is sanitize(resolve(merged mapping)) *)

(** C1. For every record, [toJson()] returns exactly
    [sanitize(resolve(m))], where [m] starts from [_additionalAttributes]
    and has [name], [namespace], [annotations] and [labels] overwritten in
    this order by the typed fields, and [sanitize] runs with
    [filterEmptyArrays] and [filterEmptyObjects] both enabled. *)
Theorem toJson_is_sanitize_resolve_merged
    (resolve : heap → value → result doc)
    (sanitizeValue : doc → SanitizeOptions → result doc) (w : world) :
  (toJson resolve sanitizeValue w).1 = snapshot_by_spec resolve sanitizeValue w.
Proof. by rewrite toJson_eq. Qed.

(** C5. Two calls of [toJson()] with no mutating call in between, only
    [getLabel] and [toJson] calls, return equal results, and none of these
    calls changes the record or the store. *)
Theorem toJson_twice
    (resolve : heap → value → result doc)
    (sanitizeValue : doc → SanitizeOptions → result doc)
    (w : world) (qs : list query) :
  let first := toJson resolve sanitizeValue w in
  let between := run resolve sanitizeValue (op_of_query <$> qs) first.2 in
  first.2 = w ∧ between = w ∧ toJson resolve sanitizeValue between = first.
Proof.
  cbv zeta. rewrite run_queries, !toJson_eq. by repeat split.
Qed.

(** C8. A failure of [resolve], or of [sanitizeValue] on what [resolve]
    returned, is the result of [toJson()] as it was thrown, and the world
    is the one before the call. *)
Theorem toJson_propagates_failure
    (resolve : heap → value → result doc)
    (sanitizeValue : doc → SanitizeOptions → result doc) (w : world) (e : exn) :
  let l := fresh (dom (store w)) in
  let h := <[l := CObj (merged_mapping w)]> (store w) in
  (resolve h (VRef l) = Err e → toJson resolve sanitizeValue w = (Err e, w)) ∧
  (∀ r, resolve h (VRef l) = Ok r → sanitizeValue r both_filters = Err e →
        toJson resolve sanitizeValue w = (Err e, w)).
Proof.
  simpl. rewrite toJson_eq. unfold snapshot_by_spec. split.
  - by intros ->.
  - intros r -> Hs. by rewrite <- Hs.
Qed.

(** ** Precedence of the typed fields *)

Lemma merged_mapping_lookup w k :
  merged_mapping w !! k =
  if decide ("labels" = k) then Some (VRef (labels (self w)))
  else if decide ("annotations" = k) then Some (VRef (annotations (self w)))
  else if decide ("namespace" = k)
       then Some (value_of_optional (namespace (self w)))
  else if decide ("name" = k) then Some (value_of_optional (name (self w)))
  else own_props (store w) (_additionalAttributes (self w)) !! k.
Proof. unfold merged_mapping. by rewrite !lookup_insert. Qed.

Lemma reserved_keys_spec k :
  k ∈ reserved_keys ↔
  k = "name" ∨ k = "namespace" ∨ k = "labels" ∨ k = "annotations".
Proof. unfold reserved_keys. rewrite !elem_of_cons, elem_of_nil. tauto. Qed.

Lemma merged_mapping_reserved w k :
  k ∈ reserved_keys → merged_mapping w !! k = Some (typed_field (self w) k).
Proof.
  rewrite reserved_keys_spec.
  intros [->|[->|[->| ->]]]; by rewrite merged_mapping_lookup.
Qed.

Section Precedence.

Variable produce : nat → result doc.

Lemma snapshot_entry_name w :
  snapshot_entry produce w "name" = DStr <$> name (self w).
Proof.
  unfold snapshot_entry. rewrite (merged_mapping_reserved w "name").
  - simpl. unfold typed_field. simpl. rewrite resolve_value_optional.
    by destruct (name (self w)).
  - apply reserved_keys_spec. tauto.
Qed.

Lemma snapshot_entry_namespace w :
  snapshot_entry produce w "namespace" = DStr <$> namespace (self w).
Proof.
  unfold snapshot_entry. rewrite (merged_mapping_reserved w "namespace").
  - simpl. unfold typed_field. simpl. rewrite resolve_value_optional.
    by destruct (namespace (self w)).
  - apply reserved_keys_spec. tauto.
Qed.

Lemma toSnapshot_name w d :
  (toSnapshot produce w).1 = Ok d →
  doc_get d "name" = doc_of_optional (name (self w)).
Proof.
  intros (m & -> & Hm)%toSnapshot_lookup. simpl.
  rewrite Hm, snapshot_entry_name. by destruct (name (self w)).
Qed.

Lemma toSnapshot_namespace w d :
  (toSnapshot produce w).1 = Ok d →
  doc_get d "namespace" = doc_of_optional (namespace (self w)).
Proof.
  intros (m & -> & Hm)%toSnapshot_lookup. simpl.
  rewrite Hm, snapshot_entry_namespace. by destruct (namespace (self w)).
Qed.

End Precedence.

(** C2. When [_additionalAttributes] holds a [name] entry that differs
    from the typed [name], the document [toJson()] returns has the typed
    field's value under [name]. *)
Theorem typed_name_wins
    (produce : nat → result doc) (w : world) (v : value) (d : doc) :
  own_props (store w) (_additionalAttributes (self w)) !! "name" = Some v →
  v ≠ value_of_optional (name (self w)) →
  (toSnapshot produce w).1 = Ok d →
  doc_get d "name" = doc_of_optional (name (self w)).
Proof. intros _ _. apply toSnapshot_name. Qed.

(** ** Records built from an empty options object *)

Lemma new_empty_options h0 o :
  h0 !! o = Some (CObj ∅) →
  new_ApiObjectMetadataDefinition (Some o) h0 = Some (empty_options_world h0 o).
Proof.
  intros Ho. unfold new_ApiObjectMetadataDefinition, empty_options_world.
  rewrite Ho. rewrite !(get_prop_empty _ _ _ Ho). simpl. unfold alloc.
  set (lbl := fresh (dom h0)). set (h2 := <[lbl := CObj ∅]> h0).
  assert (Ho2 : h2 !! o = Some (CObj ∅)) by by apply lookup_insert_fresh.
  rewrite (get_prop_empty _ _ _ Ho2). simpl. unfold alloc.
  set (ann := fresh (dom h2)). set (h3 := <[ann := CObj ∅]> h2).
  assert (Ho3 : h3 !! o = Some (CObj ∅)) by by apply lookup_insert_fresh.
  by rewrite (get_prop_empty _ _ _ Ho3).
Qed.

Lemma default_world_eq h0 :
  default_world h0 =
  empty_options_world (<[fresh (dom h0) := CObj ∅]> h0) (fresh (dom h0)).
Proof. reflexivity. Qed.

Lemma empty_options_world_objects h0 o :
  h0 !! o = Some (CObj ∅) →
  let w := empty_options_world h0 o in
  store w !! labels (self w) = Some (CObj ∅) ∧
  store w !! annotations (self w) = Some (CObj ∅) ∧
  store w !! o = Some (CObj ∅) ∧
  labels (self w) ≠ o ∧ annotations (self w) ≠ o.
Proof.
  intros Ho. unfold empty_options_world. simpl.
  set (lbl := fresh (dom h0)). set (h2 := <[lbl := CObj ∅]> h0).
  set (ann := fresh (dom h2)).
  assert (Hl : h2 !! lbl = Some (CObj ∅)) by apply lookup_insert_eq.
  assert (Ho2 : h2 !! o = Some (CObj ∅)) by by apply lookup_insert_fresh.
  repeat split.
  - by apply lookup_insert_fresh.
  - apply lookup_insert_eq.
  - by apply lookup_insert_fresh.
  - intros Heq. pose proof (is_fresh (dom h0)) as Hf.
    apply not_elem_of_dom in Hf. fold lbl in Hf. congruence.
  - intros Heq. pose proof (is_fresh (dom h2)) as Hf.
    apply not_elem_of_dom in Hf. fold ann in Hf. congruence.
Qed.

Section EmptyOptions.

Variable produce : nat → result doc.

Lemma resolve_ref_empty w l :
  store w !! l = Some (CObj ∅) →
  resolve_value produce (size (store w)) (snapshot_store w) (VRef l)
  = Ok (DObj ∅).
Proof.
  intros Hl. destruct (size (store w)) as [|n] eqn:Hsz.
  - apply map_size_empty_inv in Hsz. rewrite Hsz, lookup_empty in Hl.
    discriminate.
  - apply resolve_value_empty_object. by apply snapshot_store_lookup.
Qed.

Lemma snapshot_entry_empty_ref w k l :
  merged_mapping w !! k = Some (VRef l) →
  store w !! l = Some (CObj ∅) →
  snapshot_entry produce w k = None.
Proof.
  intros Hk Hl. unfold snapshot_entry. rewrite Hk. simpl.
  by rewrite resolve_ref_empty.
Qed.

Lemma resolve_value_num n h z : resolve_value produce n h (VNum z) = Ok (DNum z).
Proof. by destruct n. Qed.

(** Every entry of the snapshot of a record whose labels and annotations
    are empty comes from the additional attributes. *)
Lemma snapshot_entry_empty_labels w k :
  store w !! labels (self w) = Some (CObj ∅) →
  store w !! annotations (self w) = Some (CObj ∅) →
  name (self w) = None → namespace (self w) = None →
  snapshot_entry produce w k =
  if decide (k ∈ reserved_keys) then None
  else v ← own_props (store w) (_additionalAttributes (self w)) !! k;
       x ← result_to_option
              (resolve_value produce (size (store w)) (snapshot_store w) v);
       keep both_filters (sanitize_doc both_filters x).
Proof.
  intros Hl Ha Hn Hns. case_decide as Hk.
  - apply reserved_keys_spec in Hk.
    destruct Hk as [->|[->|[->| ->]]].
    + by rewrite snapshot_entry_name, Hn.
    + by rewrite snapshot_entry_namespace, Hns.
    + apply (snapshot_entry_empty_ref w _ (labels (self w)));
        [by rewrite merged_mapping_lookup|done].
    + apply (snapshot_entry_empty_ref w _ (annotations (self w)));
        [by rewrite merged_mapping_lookup|done].
  - unfold snapshot_entry. rewrite merged_mapping_lookup.
    rewrite reserved_keys_spec in Hk.
    repeat case_decide; try done; exfalso; apply Hk; subst; tauto.
Qed.

(** The snapshot of a record without name and namespace and with empty
    labels and annotations exists as soon as the additional attributes
    resolve. *)
Lemma toSnapshot_empty_labels w :
  store w !! labels (self w) = Some (CObj ∅) →
  store w !! annotations (self w) = Some (CObj ∅) →
  name (self w) = None → namespace (self w) = None →
  (∀ k v, own_props (store w) (_additionalAttributes (self w)) !! k = Some v →
     ∃ d, resolve_value produce (size (store w)) (snapshot_store w) v = Ok d) →
  ∃ m, toSnapshot produce w = (Ok (DObj m), w) ∧
       ∀ k, m !! k = snapshot_entry produce w k.
Proof.
  intros Hl Ha Hn Hns Hattrs.
  destruct (toSnapshot_ok produce w) as [d Hd].
  { intros k v. rewrite merged_mapping_lookup.
    repeat case_decide; [intros [= <-]..|apply Hattrs];
      rewrite ?resolve_value_optional, ?resolve_ref_empty by done;
      by eexists. }
  pose proof Hd as (m & -> & Hm)%toSnapshot_lookup.
  exists m. split; [|done].
  rewrite toSnapshot_eq in *. simpl in Hd. by rewrite Hd.
Qed.

End EmptyOptions.

(** C4. The snapshot of a record constructed without options and not
    mutated has no [labels] key and no [annotations] key. *)
Theorem default_snapshot_has_no_labels_annotations
    (produce : nat → result doc) (h0 : heap) :
  ∃ w d, new_ApiObjectMetadataDefinition None h0 = Some w ∧
         toSnapshot produce w = (Ok d, w) ∧
         ¬ doc_has_key d "labels" ∧ ¬ doc_has_key d "annotations".
Proof.
  exists (default_world h0).
  rewrite new_default, default_world_eq.
  set (o := fresh (dom h0)). set (h1 := <[o := CObj ∅]> h0).
  assert (Ho : h1 !! o = Some (CObj ∅)) by apply lookup_insert_eq.
  destruct (empty_options_world_objects h1 o Ho) as (Hl & Ha & Hx & _).
  apply own_props_object in Hx.
  destruct (toSnapshot_empty_labels produce (empty_options_world h1 o))
    as (m & Hm & Hentry); try done.
  { intros k v. simpl in *. by rewrite Hx, lookup_empty. }
  exists (DObj m). repeat split; [done|..]; simpl;
    rewrite Hentry, snapshot_entry_empty_labels by done;
    by intros [? ?].
Qed.

(** C9. For the record constructed from the empty options object,
    [add("custom", 42)] followed by [toJson()] returns exactly
    [{ custom: 42 }]: no [name], [namespace], [labels] or [annotations]
    key. *)
Theorem custom_attribute_snapshot
    (produce : nat → result doc) (h0 : heap) (o : loc) :
  h0 !! o = Some (CObj ∅) →
  ∃ w, new_ApiObjectMetadataDefinition (Some o) h0 = Some w ∧
       let w' := (add "custom" (VNum 42) w).2 in
       toSnapshot produce w' = (Ok (DObj {["custom" := DNum 42]}), w') ∧
       ∀ k, k ∈ reserved_keys → ¬ doc_has_key (DObj {["custom" := DNum 42]}) k.
Proof.
  intros Ho. exists (empty_options_world h0 o).
  split; [by apply new_empty_options|]. cbv zeta.
  destruct (empty_options_world_objects h0 o Ho) as (Hl & Ha & Hx & Hlo & Hao).
  set (w := empty_options_world h0 o) in *.
  rewrite add_world. change (_additionalAttributes (self w)) with o.
  rewrite (written_ordinary _ _ _ _ ∅) by done.
  set (w' := with_store w (<[o := CObj (<["custom" := VNum 42]> ∅)]> (store w))).
  assert (Hattrs : own_props (store w') (_additionalAttributes (self w'))
                   = <["custom" := VNum 42]> ∅).
  { apply (own_props_object _ _ VObjectPrototype false), lookup_insert_eq. }
  assert (Hl' : store w' !! labels (self w') = Some (CObj ∅)).
  { unfold w'. simpl. by rewrite lookup_insert_ne. }
  assert (Ha' : store w' !! annotations (self w') = Some (CObj ∅)).
  { unfold w'. simpl. by rewrite lookup_insert_ne. }
  destruct (toSnapshot_empty_labels produce w') as (m & Hm & Hentry); try done.
  { intros k v. rewrite Hattrs, lookup_insert.
    case_decide; [|by rewrite lookup_empty].
    intros [= <-]. rewrite resolve_value_num. by eexists. }
  assert (m = {["custom" := DNum 42]}) as ->.
  { apply map_eq. intros k. rewrite Hentry.
    rewrite snapshot_entry_empty_labels by done.
    rewrite Hattrs, lookup_insert, lookup_singleton.
    case_decide as Hk; repeat case_decide; subst; try done.
    - apply reserved_keys_spec in Hk. by destruct Hk as [|[|[|]]].
    - simpl. by rewrite resolve_value_num. }
  split; [done|]. intros k Hk. simpl. rewrite lookup_singleton.
  case_decide; subst; [|by intros [? ?]].
  apply reserved_keys_spec in Hk. by destruct Hk as [|[|[|]]].
Qed.

(** ** Options of the declared type *)

Lemma object_or_fresh_typed v h :
  optional_object h v →
  ∃ l h', object_or_fresh v h = Some (l, h') ∧ extends h h'.
Proof.
  intros [->|[->|(l & -> & (p & fz & m & Hl))]]; simpl.
  1,2: eexists _, _; split; [done|];
    apply extends_insert, not_elem_of_dom, is_fresh.
  rewrite Hl. eexists _, _. split; [done|apply extends_refl].
Qed.

(** The constructor accepts every options object of the declared type. *)
Lemma new_typed h o :
  options_typed h o → is_Some (new_ApiObjectMetadataDefinition (Some o) h).
Proof.
  intros (Ho & [nm Hnm] & [ns Hns] & Hl & Ha).
  unfold new_ApiObjectMetadataDefinition.
  pose proof Ho as (p & fz & m & Hm). rewrite Hm, Hnm. simpl.
  destruct (object_or_fresh_typed _ _ Hl) as (lbl & h2 & -> & H2). simpl.
  rewrite (get_prop_extends h h2) by done.
  destruct (object_or_fresh_typed (get_prop h o "annotations") h2)
    as (ann & h3 & -> & H3).
  { destruct Ha as [?|[?|(l & ? & Hl0)]]; [by left|by right; left|].
    right; right. exists l. split; [done|]. by eapply is_object_extends. }
  simpl. rewrite (get_prop_extends h h3) by (by eapply extends_trans).
  rewrite Hns. by eexists.
Qed.

(** ** The invariant *)

(** C6. The constructor returns a record when it is called without
    options and when it is called with any options object of the declared
    type; after construction and after any sequence of [addLabel],
    [addAnnotation], [add], [getLabel] and [toJson] calls, [labels] and
    [annotations] are objects of the store. *)
Theorem labels_annotations_always_objects
    (resolve : heap → value → result doc)
    (sanitizeValue : doc → SanitizeOptions → result doc)
    (options : option loc) (h0 : heap) :
  options_given h0 options →
  ∃ w, new_ApiObjectMetadataDefinition options h0 = Some w ∧
       ∀ ops, let w' := run resolve sanitizeValue ops w in
              is_object (store w') (labels (self w')) ∧
              is_object (store w') (annotations (self w')).
Proof.
  intros Hgiven.
  assert (Hnew : ∃ w, new_ApiObjectMetadataDefinition options h0 = Some w).
  { destruct options as [o|]; [by apply new_typed|].
    eexists. apply new_default. }
  destruct Hnew as [w Hnew]. exists w. split; [done|].
  intros ops. cbv zeta.
  destruct (run_wf resolve sanitizeValue ops w (new_wf _ _ _ Hnew))
    as (Hl & Ha & _).
  by split.
Qed.

(** ** Frame *)




(** ** Labels *)


(** ** Attributes under the typed keys *)



(** ** Witnesses on concrete records *)

(** Closed statements about concrete stores are settled by evaluation. *)
Ltac by_evaluation := vm_compute; reflexivity.

Lemma new_foo :
  new_ApiObjectMetadataDefinition (Some 2%positive) foo_heap = Some foo_world.
Proof. by_evaluation. Qed.


(** The example of the specification: [{ name: "foo", labels: { app:
    "bar" } }], then [addAnnotation("team", "x")]. *)
Example foo_snapshot :
  (toSnapshot no_tokens (addAnnotation "team" "x" foo_world).2).1 =
  Ok (DObj {[ "name" := DStr "foo";
              "labels" := DObj {[ "app" := DStr "bar" ]};
              "annotations" := DObj {[ "team" := DStr "x" ]} ]}).
Proof. by_evaluation. Qed.

(** In [foo_world] with the literal of [toJson] at location 4, every
    reference goes to a smaller location: the snapshot exists. *)
Example foo_snapshot_returns :
  ∃ d, toSnapshot no_tokens foo_world = (Ok d, foo_world).
Proof.
  apply toSnapshot_returns.
  - apply closedb_closed. by_evaluation.
  - by_evaluation.
  - apply (rankedb_acyclic Pos.to_nat). by_evaluation.
Qed.

(** An options object that contains itself has no snapshot. *)
Example cyclic_snapshot :
  (toSnapshot no_tokens
     (add "self" (VRef 1%positive) (default_world ∅)).2).1 = Err RangeError.
Proof. by_evaluation. Qed.

Lemma typed_name_wins_witness :
  let w := (add "name" (VStr "stale") foo_world).2 in
  let d := DObj {[ "name" := DStr "foo";
                   "labels" := DObj {[ "app" := DStr "bar" ]} ]} in
  own_props (store w) (_additionalAttributes (self w)) !! "name"
  = Some (VStr "stale") ∧
  VStr "stale" ≠ value_of_optional (name (self w)) ∧
  (toSnapshot no_tokens w).1 = Ok d ∧
  doc_get d "name" = DStr "foo".
Proof.
  assert (Hattr : own_props (store (add "name" (VStr "stale") foo_world).2)
                    (_additionalAttributes (self foo_world)) !! "name"
                  = Some (VStr "stale")) by by_evaluation.
  assert (Hsnap : (toSnapshot no_tokens
                     (add "name" (VStr "stale") foo_world).2).1
                  = Ok (DObj {[ "name" := DStr "foo";
                                "labels" := DObj {[ "app" := DStr "bar" ]} ]}))
    by by_evaluation.
  cbv zeta. split; [exact Hattr|]. split; [discriminate|].
  split; [exact Hsnap|].
  exact (typed_name_wins no_tokens _ _ _ Hattr ltac:(discriminate) Hsnap).
Defined.



Lemma labels_annotations_always_objects_witness :
  options_given foo_heap (Some 2%positive) ∧
  options_given foo_heap None ∧
  (∃ w, new_ApiObjectMetadataDefinition (Some 2%positive) foo_heap = Some w ∧
        ∀ ops, let w' := run_modelled no_tokens ops w in
               is_object (store w') (labels (self w')) ∧
               is_object (store w') (annotations (self w'))) ∧
  (∃ w, new_ApiObjectMetadataDefinition None foo_heap = Some w ∧
        ∀ ops, let w' := run_modelled no_tokens ops w in
               is_object (store w') (labels (self w')) ∧
               is_object (store w') (annotations (self w'))).
Proof.
  assert (Htyped : options_given foo_heap (Some 2%positive)).
  { split; [eexists _, _, _; by_evaluation|].
    split; [eexists; by_evaluation|]. split; [eexists; by_evaluation|]. split.
    - right; right. exists 1%positive. split; [by_evaluation|].
      eexists _, _, _. by_evaluation.
    - left. by_evaluation. }
  split; [exact Htyped|]. split; [exact I|]. split.
  - exact (labels_annotations_always_objects (resolve_modelled no_tokens)
             sanitizeValue_modelled (Some 2%positive) foo_heap Htyped).
  - exact (labels_annotations_always_objects (resolve_modelled no_tokens)
             sanitizeValue_modelled None foo_heap I).
Defined.

Lemma foo_world_wf : wf foo_world.
Proof. apply (new_wf _ _ _ new_foo). Qed.

Lemma foo_world_ordinary : wf_ordinary foo_world.
Proof. repeat split; eexists; by_evaluation. Qed.


(** The labels object passed in the options stays reachable as the
    [labels] entry of the options object, so a label added later shows
    there as well. *)
Example addLabel_visible_through_options :
  resolve_modelled no_tokens (store (addLabel "tier" "web" foo_world).2)
    (VRef (_additionalAttributes (self foo_world)))
  = Ok (DObj {[ "name" := DStr "foo";
                "labels" := DObj {[ "app" := DStr "bar";
                                    "tier" := DStr "web" ]} ]}).
Proof. by_evaluation. Qed.


Lemma toJson_propagates_failure_witness :
  let l := fresh (dom (store foo_world)) in
  let h := <[l := CObj (merged_mapping foo_world)]> (store foo_world) in
  let r := DObj {[ "name" := DStr "foo"; "namespace" := DUndefined;
                   "labels" := DObj {[ "app" := DStr "bar" ]};
                   "annotations" := DObj ∅ ]} in
  (failing_resolve h (VRef l) = Err (Thrown "cannot resolve") ∧
   toJson failing_resolve sanitizeValue_modelled foo_world
   = (Err (Thrown "cannot resolve"), foo_world)) ∧
  (resolve_modelled no_tokens h (VRef l) = Ok r ∧
   failing_sanitize r both_filters = Err (Thrown "cannot sanitize") ∧
   toJson (resolve_modelled no_tokens) failing_sanitize foo_world
   = (Err (Thrown "cannot sanitize"), foo_world)).
Proof.
  cbv zeta. split.
  - split; [reflexivity|].
    apply (toJson_propagates_failure failing_resolve sanitizeValue_modelled
             foo_world (Thrown "cannot resolve")).
    reflexivity.
  - split; [by_evaluation|]. split; [reflexivity|].
    eapply (toJson_propagates_failure (resolve_modelled no_tokens)
              failing_sanitize foo_world (Thrown "cannot sanitize")).
    + by_evaluation.
    + reflexivity.
Defined.

Lemma custom_attribute_snapshot_witness :
  empty_options_heap !! 1%positive = Some (CObj ∅) ∧
  ∃ w, new_ApiObjectMetadataDefinition (Some 1%positive) empty_options_heap
       = Some w ∧
       let w' := (add "custom" (VNum 42) w).2 in
       toSnapshot no_tokens w' = (Ok (DObj {["custom" := DNum 42]}), w') ∧
       ∀ k, k ∈ reserved_keys → ¬ doc_has_key (DObj {["custom" := DNum 42]}) k.
Proof.
  split; [by_evaluation|].
  apply (custom_attribute_snapshot no_tokens empty_options_heap 1%positive).
  by_evaluation.
Defined.



(** The snapshot exists in the case above, and is empty. *)
Example add_name_snapshot :
  (toSnapshot no_tokens (add "name" (VStr "zz") (default_world ∅)).2).1
  = Ok (DObj ∅).
Proof. by_evaluation. Qed.

(** ** Writes, object by object *)

Lemma world_eq w1 w2 : self w1 = self w2 → store w1 = store w2 → w1 = w2.
Proof. destruct w1, w2. simpl. by intros -> ->. Qed.

Section Writes.

Variable resolve : heap → value → result doc.
Variable sanitizeValue : doc → SanitizeOptions → result doc.

Lemma exec_other o w l :
  l ≠ labels (self w) → l ≠ annotations (self w) →
  l ≠ _additionalAttributes (self w) →
  store (exec resolve sanitizeValue o w).2 !! l = store w !! l.
Proof.
  intros Hl Ha Hx. rewrite exec_store.
  destruct o; simpl; try done; by apply lookup_written_ne.
Qed.

Lemma run_other ops w l :
  l ≠ labels (self w) → l ≠ annotations (self w) →
  l ≠ _additionalAttributes (self w) →
  store (run resolve sanitizeValue ops w) !! l = store w !! l.
Proof.
  revert w. induction ops as [|o ops IH]; intros w Hl Ha Hx; [done|].
  rewrite run_cons, IH by (by rewrite exec_self).
  by apply exec_other.
Qed.

Lemma run_dom ops w :
  dom (store (run resolve sanitizeValue ops w)) = dom (store w).
Proof.
  revert w. induction ops as [|o ops IH]; intros w; [done|].
  rewrite run_cons, IH, exec_store.
  destruct (write_of (self w) o) as [[[l k] v]|]; [|done].
  apply written_dom.
Qed.

End Writes.

(** ** What the constructor does to the store *)

Lemma object_or_fresh_inv v h l h' :
  object_or_fresh v h = Some (l, h') →
  (nullish v ∧ h !! l = None ∧ h' = <[l := CObj ∅]> h) ∨
  (v = VRef l ∧ h' = h ∧ is_object h l).
Proof.
  unfold object_or_fresh, nullish. intros Hv.
  assert (Hfresh : Some (alloc (CObj ∅) h) = Some (l, h') →
    h !! l = None ∧ h' = <[l := CObj ∅]> h).
  { intros [= <- <-]. split; [apply (alloc_fresh (CObj ∅))|done]. }
  destruct v as [| | | | | |l1| |]; try discriminate.
  - left. destruct (Hfresh Hv). auto.
  - left. destruct (Hfresh Hv). auto.
  - destruct (h !! l1) as [[p fz m|vs]|] eqn:Hl1; try discriminate.
    injection Hv as <- <-. right. repeat split. by exists p, fz, m.
Qed.

Lemma object_or_fresh_extends v h l h' :
  object_or_fresh v h = Some (l, h') → extends h h' ∧ size h' ≤ S (size h).
Proof.
  intros [(_ & Hl & ->)|(_ & -> & _)]%object_or_fresh_inv.
  - split; [by apply extends_insert|]. by rewrite map_size_insert_None.
  - split; [apply extends_refl|lia].
Qed.

Lemma optional_string_value v s :
  optional_string v = Some s → value_of_optional s = v.
Proof. destruct v; simpl; intros [= <-]; done. Qed.

(** The steps of the constructor, with what each does to the store. *)
Lemma new_steps options h0 w :
  new_ApiObjectMetadataDefinition options h0 = Some w →
  ∃ h1 h2,
    let this := self w in
    let o := _additionalAttributes this in
    extends h0 h1 ∧ extends h1 h2 ∧ extends h2 (store w) ∧
    size (store w) ≤ size h0 + 3 ∧
    is_object h1 o ∧
    match options with
    | Some o' => o = o' ∧ h1 = h0
    | None => h0 !! o = None ∧ h1 = <[o := CObj ∅]> h0
    end ∧
    value_of_optional (name this) = get_prop h1 o "name" ∧
    value_of_optional (namespace this) = get_prop h1 o "namespace" ∧
    ((nullish (get_prop h1 o "labels") ∧ h1 !! labels this = None ∧
      h2 = <[labels this := CObj ∅]> h1) ∨
     (get_prop h1 o "labels" = VRef (labels this) ∧ h2 = h1 ∧
      is_object h1 (labels this))) ∧
    ((nullish (get_prop h1 o "annotations") ∧ h2 !! annotations this = None ∧
      store w = <[annotations this := CObj ∅]> h2) ∨
     (get_prop h1 o "annotations" = VRef (annotations this) ∧ store w = h2 ∧
      is_object h2 (annotations this))).
Proof.
  intros (o & h1 & lbl & h2 & ann & h3 & nm & ns & Hopt & Ho & Hnm & Hl & Ha
          & Hns & ->)%new_inv.
  exists h1, h2. simpl.
  destruct (object_or_fresh_extends _ _ _ _ Hl) as [H12 Hs12].
  destruct (object_or_fresh_extends _ _ _ _ Ha) as [H23 Hs23].
  assert (H01 : extends h0 h1 ∧ size h1 ≤ S (size h0) ∧
                match options with
                | Some o' => o = o' ∧ h1 = h0
                | None => h0 !! o = None ∧ h1 = <[o := CObj ∅]> h0
                end).
  { destruct options as [o'|].
    - injection Hopt as -> ->.
      split; [apply extends_refl|]. split; [lia|done].
    - unfold alloc in Hopt. injection Hopt as -> ->.
      assert (Hf : h0 !! fresh (dom h0) = None)
        by apply not_elem_of_dom, is_fresh.
      split; [by apply extends_insert|]. split; [|done].
      by rewrite map_size_insert_None. }
  destruct H01 as (H01 & Hs01 & Hcase).
  assert (H13 : extends h1 h3) by by eapply extends_trans.
  rewrite (get_prop_extends h1 h2) in Ha by done.
  rewrite (get_prop_extends h1 h3) in Hns by done.
  split; [exact H01|]. split; [exact H12|]. split; [exact H23|].
  split; [lia|]. split; [done|]. split; [done|].
  split; [by apply optional_string_value|].
  split; [by apply optional_string_value|].
  split; [by apply object_or_fresh_inv in Hl|by apply object_or_fresh_inv in Ha].
Qed.

Lemma default_world_fresh h :
  let w := default_world h in
  h !! _additionalAttributes (self w) = None ∧
  h !! labels (self w) = None ∧
  h !! annotations (self w) = None ∧
  h ⊆ store w.
Proof.
  unfold default_world. simpl.
  set (o := fresh (dom h)). set (h1 := <[o := CObj ∅]> h).
  set (lbl := fresh (dom h1)). set (h2 := <[lbl := CObj ∅]> h1).
  set (ann := fresh (dom h2)).
  assert (Ho : h !! o = None) by apply not_elem_of_dom, is_fresh.
  assert (Hl : h1 !! lbl = None) by apply not_elem_of_dom, is_fresh.
  assert (Ha : h2 !! ann = None) by apply not_elem_of_dom, is_fresh.
  assert (H01 : h ⊆ h1) by by apply insert_subseteq.
  assert (H12 : h1 ⊆ h2) by by apply insert_subseteq.
  assert (H23 : h2 ⊆ <[ann := CObj ∅]> h2) by by apply insert_subseteq.
  repeat split; [done| | |].
  - by eapply lookup_weaken_None.
  - eapply lookup_weaken_None; [exact Ha|]. by etrans.
  - etrans; [exact H01|]. by etrans.
Qed.

(** ** The constructor and the caller's objects *)

(** X1. The constructor changes no object that exists: every cell of the
    store is as it was, and at most three cells are new (the default
    options, labels and annotations). *)
Theorem new_preserves_store (options : option loc) (h0 : heap) (w : world) :
  new_ApiObjectMetadataDefinition options h0 = Some w →
  (∀ l c, h0 !! l = Some c → store w !! l = Some c) ∧
  size (store w) ≤ size h0 + 3.
Proof.
  intros (h1 & h2 & H01 & H12 & H23 & Hsz & _)%new_steps. split; [|done].
  intros l c Hl. eapply lookup_weaken; [exact Hl|].
  apply (extends_trans _ _ _ H01 (extends_trans _ _ _ H12 H23)).
Qed.

(** X2. A record reads back the options it was constructed from: the
    options object itself is [_additionalAttributes], [name] and
    [namespace] are the options' values, an [options.labels] object is the
    labels object, so that [getLabel(k)] returns [options.labels[k]], and
    an [options.annotations] object is the annotations object. *)
Theorem new_reads_options (o : loc) (h0 : heap) (w : world) :
  new_ApiObjectMetadataDefinition (Some o) h0 = Some w →
  _additionalAttributes (self w) = o ∧
  value_of_optional (name (self w)) = get_prop h0 o "name" ∧
  value_of_optional (namespace (self w)) = get_prop h0 o "namespace" ∧
  (∀ l, get_prop h0 o "labels" = VRef l →
        labels (self w) = l ∧
        ∀ k, (getLabel k w).1 = Ok (get_prop h0 l k)) ∧
  (∀ l, get_prop h0 o "annotations" = VRef l → annotations (self w) = l).
Proof.
  intros (h1 & h2 & H01 & H12 & H23 & _ & Ho & [Hoo ->] & Hnm & Hns & Hl & Ha)
    %new_steps.
  cbv beta zeta in *. rewrite Hoo in *. repeat split; try done.
  - destruct Hl as [([Hn|Hn] & _)|(Hl & _)]; congruence.
  - intros k. rewrite getLabel_eq. simpl. f_equal.
    destruct Hl as [([Hn|Hn] & _)|(Hl & -> & Hobj)]; [congruence..|].
    assert (labels (self w) = l) as <- by congruence.
    apply get_prop_extends. exact (extends_trans _ _ _ H12 H23).
  - intros l Hl'. destruct Ha as [([Hn|Hn] & _)|(Ha & _)]; congruence.
Qed.

(** X3. Where the options give no labels ([undefined] or [null]), the
    labels object is a new empty object, distinct from the options object
    and from every object that existed; the same holds for the
    annotations, which are then also distinct from the labels. *)
Theorem new_default_objects (options : option loc) (h0 : heap) (w : world) :
  new_ApiObjectMetadataDefinition options h0 = Some w →
  let this := self w in
  let o := _additionalAttributes this in
  (nullish (get_prop (store w) o "labels") →
   h0 !! labels this = None ∧
   own_props (store w) (labels this) = ∅ ∧
   labels this ≠ o) ∧
  (nullish (get_prop (store w) o "annotations") →
   h0 !! annotations this = None ∧
   own_props (store w) (annotations this) = ∅ ∧
   annotations this ≠ o ∧
   annotations this ≠ labels this).
Proof.
  intros Hnew. pose proof (new_wf _ _ _ Hnew) as (Hwl & Hwa & Hwo).
  destruct (new_steps _ _ _ Hnew)
    as (h1 & h2 & H01 & H12 & H23 & _ & Ho & _ & _ & _ & Hl & Ha).
  cbv beta zeta in *.
  assert (H13 : extends h1 (store w)) by by eapply extends_trans.
  rewrite !(get_prop_extends h1 (store w)) by done.
  assert (Hl2 : is_object h2 (labels (self w))).
  { destruct Hl as [(_ & _ & ->)|(_ & -> & ?)]; [|done].
    eexists _, _, _. apply lookup_insert_eq. }
  split.
  - intros Hn. destruct Hl as [(_ & Hfresh & Hh2)|(Hl & _)];
      [|destruct Hn; congruence].
    split; [eapply lookup_weaken_None; [exact Hfresh|apply H01]|]. split.
    + rewrite (own_props_extends h2 (store w)) by done.
      apply (own_props_object _ _ VObjectPrototype false).
      rewrite Hh2. apply lookup_insert_eq.
    + intros Heq. destruct Ho as (p & fz & m & Hm). congruence.
  - intros Hn. destruct Ha as [(_ & Hfresh & Hh3)|(Ha & _)];
      [|destruct Hn; congruence].
    split; [eapply lookup_weaken_None; [exact Hfresh|]|split; [|split]].
    + apply (extends_trans _ _ _ H01 H12).
    + apply (own_props_object _ _ VObjectPrototype false).
      rewrite Hh3. apply lookup_insert_eq.
    + intros Heq.
      destruct (is_object_extends h1 h2 _ H12 Ho) as (p & fz & m & Hm).
      congruence.
    + intros Heq. destruct Hl2 as (p & fz & m & Hm). congruence.
Qed.

(** ** Sequences of calls *)

Lemma assigned_hidden (m : gmap string value) v :
  m !! "__proto__" = None → assigned m "__proto__" v = m.
Proof. intros Hm. unfold assigned. by rewrite decide_True. Qed.

Lemma assigned_insert (m : gmap string value) k v :
  ¬ (k = "__proto__" ∧ m !! k = None) → assigned m k v = <[k := v]> m.
Proof. intros Hk. unfold assigned. by rewrite decide_False. Qed.

Lemma assigned_assigned m k v1 v2 :
  assigned (assigned m k v1) k v2 = assigned m k v2.
Proof.
  destruct (decide (k = "__proto__" ∧ m !! k = None)) as [[-> H]|H].
  - by rewrite !(assigned_hidden m) by done.
  - rewrite (assigned_insert m k v1), !assigned_insert; try done.
    + apply insert_insert_eq.
    + rewrite lookup_insert_eq. by intros [_ ?].
Qed.

Lemma assigned_comm m k1 k2 v1 v2 :
  k1 ≠ k2 →
  assigned (assigned m k1 v1) k2 v2 = assigned (assigned m k2 v2) k1 v1.
Proof.
  intros Hne.
  destruct (decide (k1 = "__proto__" ∧ m !! k1 = None)) as [[-> H1]|H1];
    destruct (decide (k2 = "__proto__" ∧ m !! k2 = None)) as [[-> H2]|H2];
    try done.
  - rewrite (assigned_hidden m) by done.
    rewrite (assigned_insert m k2) by done.
    by rewrite assigned_hidden by (by rewrite lookup_insert_ne by congruence).
  - rewrite (assigned_hidden m) by done.
    rewrite (assigned_insert m k1) by done.
    by rewrite assigned_hidden by (by rewrite lookup_insert_ne by congruence).
  - rewrite (assigned_insert m k1), (assigned_insert m k2) by done.
    rewrite !assigned_insert
      by (rewrite lookup_insert_ne by congruence; tauto).
    by apply insert_insert_ne.
Qed.

Lemma write_of_ordinary w o l k v :
  wf_ordinary w → write_of (self w) o = Some (l, k, v) →
  ordinary (store w) l.
Proof.
  intros (Hl & Ha & Hx). destruct o; simpl; intros [= <- <- <-]; done.
Qed.

Lemma write_of_no_prototype this o l k v :
  sets_prototype o = false → write_of this o = Some (l, k, v) →
  k = "__proto__" → is_object_or_null v = false.
Proof.
  intros Hp Hw Hk. subst k.
  destruct o; simpl in *; try done; injection Hw as _ Hk Hv; subst;
    [done..|].
  by rewrite bool_decide_eq_true_2 in Hp.
Qed.


(** X5. No sequence of calls creates or removes an object, and none
    changes an object other than the record's labels, annotations and
    options objects. *)
Theorem calls_touch_only_record_objects
    (resolve : heap → value → result doc)
    (sanitizeValue : doc → SanitizeOptions → result doc)
    (w : world) (ops : list op) :
  let w' := run resolve sanitizeValue ops w in
  dom (store w') = dom (store w) ∧
  ∀ l, l ≠ labels (self w) → l ≠ annotations (self w) →
       l ≠ _additionalAttributes (self w) →
       store w' !! l = store w !! l.
Proof.
  cbv zeta. split; [apply run_dom|]. intros l. apply run_other.
Qed.

Lemma written_comm h l1 l2 k1 k2 v1 v2 :
  ordinary h l1 → ordinary h l2 →
  (k1 = "__proto__" → is_object_or_null v1 = false) →
  (k2 = "__proto__" → is_object_or_null v2 = false) →
  l1 ≠ l2 ∨ k1 ≠ k2 →
  written (written h l1 k1 v1) l2 k2 v2
  = written (written h l2 k2 v2) l1 k1 v1.
Proof.
  intros [m1 H1] [m2 H2] Hv1 Hv2 Hne.
  rewrite (written_assigned h l1 k1 v1 m1), (written_assigned h l2 k2 v2 m2)
    by done.
  destruct (decide (l1 = l2)) as [->|Hl].
  - destruct Hne as [?|Hk]; [done|].
    assert (m2 = m1) as -> by congruence.
    rewrite (written_assigned _ l2 k2 v2 (assigned m1 k1 v1))
      by (done || apply lookup_insert_eq).
    rewrite (written_assigned _ l2 k1 v1 (assigned m1 k2 v2))
      by (done || apply lookup_insert_eq).
    by rewrite !insert_insert_eq, assigned_comm.
  - rewrite (written_assigned _ l2 k2 v2 m2)
      by (done || by rewrite lookup_insert_ne).
    rewrite (written_assigned _ l1 k1 v1 m1)
      by (done || by rewrite lookup_insert_ne).
    by apply insert_insert_ne.
Qed.

Lemma written_written h l k v1 v2 :
  ordinary h l →
  (k = "__proto__" → is_object_or_null v1 = false) →
  (k = "__proto__" → is_object_or_null v2 = false) →
  written (written h l k v1) l k v2 = written h l k v2.
Proof.
  intros [m Hm] Hv1 Hv2.
  rewrite (written_assigned h l k v1 m), (written_assigned h l k v2 m) by done.
  rewrite (written_assigned _ l k v2 (assigned m k v1))
    by (done || apply lookup_insert_eq).
  by rewrite insert_insert_eq, assigned_assigned.
Qed.

(** X6. On a record whose three objects are ordinary, two calls of which
    none hands an object a prototype commute unless they write the same
    key of the same object; when they do, the second alone decides the
    outcome. *)
Theorem calls_commute_unless_clash
    (resolve : heap → value → result doc)
    (sanitizeValue : doc → SanitizeOptions → result doc)
    (w : world) (o1 o2 : op) :
  wf_ordinary w → sets_prototype o1 = false → sets_prototype o2 = false →
  (¬ clash (self w) o1 o2 →
   run resolve sanitizeValue [o1; o2] w = run resolve sanitizeValue [o2; o1] w) ∧
  (clash (self w) o1 o2 →
   run resolve sanitizeValue [o1; o2] w = run resolve sanitizeValue [o2] w).
Proof.
  intros Hord Hp1 Hp2.
  pose proof (write_of_ordinary w o1) as Ho1.
  pose proof (write_of_ordinary w o2) as Ho2.
  pose proof (write_of_no_prototype (self w) o1) as Hv1.
  pose proof (write_of_no_prototype (self w) o2) as Hv2.
  unfold clash. split; intros Hc; apply world_eq;
    rewrite ?run_cons, ?run_self, ?exec_self; try done;
    unfold run; simpl; rewrite !exec_store, !exec_self;
    destruct (write_of (self w) o1) as [[[l1 k1] v1]|];
    destruct (write_of (self w) o2) as [[[l2 k2] v2]|]; try done.
  - apply written_comm; eauto.
    destruct (decide (l1 = l2)); [|by left].
    destruct (decide (k1 = k2)); [|by right]. by destruct Hc.
  - destruct Hc as [-> ->]. apply written_written; eauto.
Qed.

(** The second half of X6 needs its hypothesis: on a new record,
    [add("__proto__", null)] takes the prototype away, after which
    [add("__proto__", "x")] creates a property; alone, the second call
    does nothing. *)
Example prototype_writes_do_not_clash_away :
  let w := default_world ∅ in
  clash (self w) (Add "__proto__" VNull) (Add "__proto__" (VStr "x")) ∧
  store (run_modelled no_tokens
           [Add "__proto__" VNull; Add "__proto__" (VStr "x")] w) !! 1%positive
  = Some (CObject VNull false {[ "__proto__" := VStr "x" ]}) ∧
  run_modelled no_tokens [Add "__proto__" (VStr "x")] w = w ∧
  run_modelled no_tokens [Add "__proto__" VNull; Add "__proto__" (VStr "x")] w
  ≠ run_modelled no_tokens [Add "__proto__" (VStr "x")] w.
Proof.
  split; [by split|]. split; [by_evaluation|]. split; [by_evaluation|].
  intros Heq. apply (f_equal (λ w, store w !! 1%positive)) in Heq.
  vm_compute in Heq. discriminate.
Qed.

Lemma props_after_string_valued this ops m :
  labels this ≠ _additionalAttributes this →
  string_valued m → string_valued (props_after this (labels this) ops m).
Proof.
  intros Hne. revert m. induction ops as [|o ops IH]; intros m Hm; [done|].
  apply IH. unfold write_to.
  assert (Hstr : ∀ k s, string_valued (assigned m k (VStr s))).
  { intros k s. unfold assigned. case_decide; [done|].
    intros k' v'. rewrite lookup_insert.
    case_decide; [intros [= <-]; by eexists|apply Hm]. }
  destruct o as [k v|k v|k v|k|]; simpl; try done.
  - case_decide; [apply Hstr|done].
  - case_decide; [apply Hstr|done].
  - case_decide; [congruence|done].
Qed.

Lemma labels_no_prototype_write this ops :
  labels this ≠ _additionalAttributes this →
  Forall (λ o, prototype_write this (labels this) o = false) ops.
Proof.
  intros Hne. apply Forall_forall. intros o _. unfold prototype_write.
  destruct o; simpl; rewrite ?andb_false_r; try done.
  by rewrite bool_decide_eq_false_2 by congruence.
Qed.

(** X11. When the labels object is an ordinary one, is not the options
    object and holds strings only, it holds strings only after any
    sequence of calls, and [getLabel(k)] returns a string or what
    [Object.prototype] holds under [k]: [undefined] for every key that
    names none of its members. *)
Theorem getLabel_returns_string_or_undefined
    (resolve : heap → value → result doc)
    (sanitizeValue : doc → SanitizeOptions → result doc)
    (w : world) (ops : list op) (k : string) :
  ordinary (store w) (labels (self w)) →
  labels (self w) ≠ _additionalAttributes (self w) →
  string_valued (own_props (store w) (labels (self w))) →
  let w' := run resolve sanitizeValue ops w in
  string_valued (own_props (store w') (labels (self w'))) ∧
  ((getLabel k w').1 = Ok (from_object_prototype k) ∨
   ∃ s, (getLabel k w').1 = Ok (VStr s)) ∧
  (¬ inherited_key k →
   (getLabel k w').1 = Ok VUndefined ∨ ∃ s, (getLabel k w').1 = Ok (VStr s)).
Proof.
  intros [m0 Hm0] Hne Hstr. cbv zeta.
  rewrite (own_props_object _ _ _ _ _ Hm0) in Hstr.
  pose proof (run_ordinary resolve sanitizeValue ops w _ m0 Hm0
                (labels_no_prototype_write _ ops Hne)) as Hrun.
  pose proof (props_after_string_valued (self w) ops _ Hne Hstr) as Hafter.
  rewrite run_self, (own_props_object _ _ _ _ _ Hrun).
  split; [done|].
  rewrite getLabel_eq. simpl. rewrite run_self.
  rewrite get_prop_object_prototype
    by by rewrite (proto_of_object _ _ _ _ _ Hrun).
  rewrite (own_props_object _ _ _ _ _ Hrun).
  destruct (props_after _ _ _ _ !! k) as [v|] eqn:Hk; simpl.
  - destruct (Hafter _ _ Hk) as [s ->]. split; [|intros _]; right; by exists s.
  - split; [by left|]. intros Hk'. left.
    by rewrite from_object_prototype_other.
Qed.

(** ** Records and the objects they share *)





(** X8. A record constructed without options works on objects of its
    own: no sequence of calls on it changes an object that existed when it
    was constructed. *)
Theorem default_record_is_isolated
    (resolve : heap → value → result doc)
    (sanitizeValue : doc → SanitizeOptions → result doc)
    (h : heap) (w : world) (ops : list op) (l : loc) (c : cell) :
  new_ApiObjectMetadataDefinition None h = Some w →
  h !! l = Some c →
  store (run resolve sanitizeValue ops w) !! l = Some c.
Proof.
  rewrite new_default. intros [= <-] Hl.
  destruct (default_world_fresh h) as (Ho & Hlbl & Hann & Hsub).
  cbv zeta in *. rewrite run_other by congruence.
  by eapply lookup_weaken.
Qed.

(** ** The literal of [toJson] *)


(** X10. The [name] and [namespace] in the literal of [toJson] are the
    ones the options had when the record was constructed, whatever is
    called afterwards, [add("name", v)] included. *)
Theorem literal_name_from_construction
    (resolve : heap → value → result doc)
    (sanitizeValue : doc → SanitizeOptions → result doc)
    (o : loc) (h0 : heap) (w : world) (ops : list op) :
  new_ApiObjectMetadataDefinition (Some o) h0 = Some w →
  let w' := run resolve sanitizeValue ops w in
  toJson_literal w' !! "name" = Some (get_prop h0 o "name") ∧
  toJson_literal w' !! "namespace" = Some (get_prop h0 o "namespace").
Proof.
  intros (h1 & h2 & _ & _ & _ & _ & _ & [Hoo ->] & Hnm & Hns & _)%new_steps.
  cbv beta zeta in *. rewrite Hoo in *.
  rewrite !toJson_literal_merged, !merged_mapping_lookup, run_self. simpl.
  by rewrite Hnm, Hns.
Qed.

(** ** Witnesses for the properties above *)

Lemma new_preserves_store_witness :
  new_ApiObjectMetadataDefinition (Some 2%positive) foo_heap = Some foo_world ∧
  (∀ l c, foo_heap !! l = Some c → store foo_world !! l = Some c) ∧
  size (store foo_world) ≤ size foo_heap + 3.
Proof.
  split; [by_evaluation|].
  apply (new_preserves_store (Some 2%positive) foo_heap foo_world).
  by_evaluation.
Defined.

Lemma new_reads_options_witness :
  new_ApiObjectMetadataDefinition (Some 2%positive) foo_heap = Some foo_world ∧
  _additionalAttributes (self foo_world) = 2%positive ∧
  value_of_optional (name (self foo_world)) = get_prop foo_heap 2%positive "name" ∧
  value_of_optional (namespace (self foo_world))
  = get_prop foo_heap 2%positive "namespace" ∧
  (∀ l, get_prop foo_heap 2%positive "labels" = VRef l →
        labels (self foo_world) = l ∧
        ∀ k, (getLabel k foo_world).1 = Ok (get_prop foo_heap l k)) ∧
  (∀ l, get_prop foo_heap 2%positive "annotations" = VRef l →
        annotations (self foo_world) = l).
Proof.
  split; [by_evaluation|].
  apply (new_reads_options 2%positive foo_heap foo_world).
  by_evaluation.
Defined.

Lemma new_default_objects_witness :
  new_ApiObjectMetadataDefinition None foo_heap = Some (default_world foo_heap) ∧
  let w := default_world foo_heap in
  let this := self w in
  let o := _additionalAttributes this in
  (nullish (get_prop (store w) o "labels") →
   foo_heap !! labels this = None ∧
   own_props (store w) (labels this) = ∅ ∧
   labels this ≠ o) ∧
  (nullish (get_prop (store w) o "annotations") →
   foo_heap !! annotations this = None ∧
   own_props (store w) (annotations this) = ∅ ∧
   annotations this ≠ o ∧
   annotations this ≠ labels this).
Proof.
  split; [apply new_default|].
  apply (new_default_objects None foo_heap (default_world foo_heap)).
  apply new_default.
Defined.


(** In the case above the label written twice has its last value. *)
Example last_label_wins :
  (getLabel "tier"
     (run_modelled no_tokens
        [AddLabel "tier" "web"; AddAnnotation "team" "x"; AddLabel "tier" "db"]
        foo_world)).1 = Ok (VStr "db").
Proof. by_evaluation. Qed.

Lemma calls_touch_only_record_objects_witness :
  let w := default_world foo_heap in
  let w' := run_modelled no_tokens
              [AddLabel "tier" "web"; Add "spec" (VNum 1); ToJson] w in
  (1%positive ≠ labels (self w) ∧ 1%positive ≠ annotations (self w) ∧
   1%positive ≠ _additionalAttributes (self w)) ∧
  dom (store w') = dom (store w) ∧
  store w' !! 1%positive = store w !! 1%positive.
Proof.
  assert (Hne : 1%positive ≠ labels (self (default_world foo_heap)) ∧
                1%positive ≠ annotations (self (default_world foo_heap)) ∧
                1%positive ≠ _additionalAttributes (self (default_world foo_heap))).
  { repeat split; intros Heq; vm_compute in Heq; discriminate. }
  cbv zeta. split; [exact Hne|].
  destruct Hne as (Hl & Ha & Hx).
  destruct (calls_touch_only_record_objects (resolve_modelled no_tokens)
              sanitizeValue_modelled (default_world foo_heap)
              [AddLabel "tier" "web"; Add "spec" (VNum 1); ToJson])
    as [Hdom Hother].
  split; [exact Hdom|]. exact (Hother 1%positive Hl Ha Hx).
Defined.

Lemma calls_commute_unless_clash_witness :
  wf_ordinary foo_world ∧
  (¬ clash (self foo_world) (AddLabel "a" "x") (AddAnnotation "a" "y") ∧
   run_modelled no_tokens [AddLabel "a" "x"; AddAnnotation "a" "y"] foo_world
   = run_modelled no_tokens [AddAnnotation "a" "y"; AddLabel "a" "x"] foo_world) ∧
  (clash (self foo_world) (AddLabel "a" "x") (AddLabel "a" "y") ∧
   run_modelled no_tokens [AddLabel "a" "x"; AddLabel "a" "y"] foo_world
   = run_modelled no_tokens [AddLabel "a" "y"] foo_world).
Proof.
  assert (Hord : wf_ordinary foo_world)
    by (repeat split; eexists; by_evaluation).
  assert (Hno : ¬ clash (self foo_world) (AddLabel "a" "x") (AddAnnotation "a" "y")).
  { intros [Heq _]. vm_compute in Heq. discriminate. }
  assert (Hyes : clash (self foo_world) (AddLabel "a" "x") (AddLabel "a" "y"))
    by (split; reflexivity).
  split; [exact Hord|]. split; (split; [assumption|]).
  - exact (proj1 (calls_commute_unless_clash (resolve_modelled no_tokens)
             sanitizeValue_modelled foo_world (AddLabel "a" "x")
             (AddAnnotation "a" "y") Hord eq_refl eq_refl) Hno).
  - exact (proj2 (calls_commute_unless_clash (resolve_modelled no_tokens)
             sanitizeValue_modelled foo_world (AddLabel "a" "x")
             (AddLabel "a" "y") Hord eq_refl eq_refl) Hyes).
Defined.


Lemma default_record_is_isolated_witness :
  let ops := [AddLabel "app" "other"; Add "name" (VStr "bar"); ToJson] in
  new_ApiObjectMetadataDefinition None foo_heap = Some (default_world foo_heap) ∧
  foo_heap !! 1%positive = Some (CObj {[ "app" := VStr "bar" ]}) ∧
  store (run_modelled no_tokens ops (default_world foo_heap)) !! 1%positive
  = Some (CObj {[ "app" := VStr "bar" ]}).
Proof.
  assert (Hl : foo_heap !! 1%positive = Some (CObj {[ "app" := VStr "bar" ]}))
    by by_evaluation.
  cbv zeta. split; [apply new_default|]. split; [exact Hl|].
  exact (default_record_is_isolated (resolve_modelled no_tokens)
           sanitizeValue_modelled foo_heap (default_world foo_heap) _ _ _
           (new_default foo_heap) Hl).
Defined.


Lemma literal_name_from_construction_witness :
  new_ApiObjectMetadataDefinition (Some 2%positive) foo_heap = Some foo_world ∧
  let w' := run_modelled no_tokens
              [Add "name" (VStr "other"); AddLabel "tier" "web"] foo_world in
  toJson_literal w' !! "name" = Some (get_prop foo_heap 2%positive "name") ∧
  toJson_literal w' !! "namespace"
  = Some (get_prop foo_heap 2%positive "namespace").
Proof.
  split; [by_evaluation|].
  apply (literal_name_from_construction (resolve_modelled no_tokens)
           sanitizeValue_modelled 2%positive foo_heap foo_world).
  by_evaluation.
Defined.

Lemma getLabel_returns_string_or_undefined_witness :
  let ops := [Add "app" (VNum 3); AddAnnotation "team" "x";
              AddLabel "tier" "web"] in
  ordinary (store foo_world) (labels (self foo_world)) ∧
  labels (self foo_world) ≠ _additionalAttributes (self foo_world) ∧
  string_valued (own_props (store foo_world) (labels (self foo_world))) ∧
  ¬ inherited_key "app" ∧
  let w' := run_modelled no_tokens ops foo_world in
  string_valued (own_props (store w') (labels (self w'))) ∧
  ((getLabel "app" w').1 = Ok (from_object_prototype "app") ∨
   ∃ s, (getLabel "app" w').1 = Ok (VStr s)) ∧
  ((getLabel "app" w').1 = Ok VUndefined ∨
   ∃ s, (getLabel "app" w').1 = Ok (VStr s)).
Proof.
  assert (Hobj : ordinary (store foo_world) (labels (self foo_world)))
    by (eexists; by_evaluation).
  assert (Hne : labels (self foo_world) ≠ _additionalAttributes (self foo_world))
    by discriminate.
  assert (Hstr : string_valued
                   (own_props (store foo_world) (labels (self foo_world)))).
  { assert (own_props (store foo_world) (labels (self foo_world))
            = {[ "app" := VStr "bar" ]}) as -> by by_evaluation.
    intros k v [_ <-]%lookup_singleton_Some. by eexists. }
  assert (Hk : ¬ inherited_key "app") by by apply (bool_decide_unpack _).
  destruct (getLabel_returns_string_or_undefined (resolve_modelled no_tokens)
              sanitizeValue_modelled foo_world
              [Add "app" (VNum 3); AddAnnotation "team" "x";
               AddLabel "tier" "web"] "app" Hobj Hne Hstr)
    as (Hafter & Hget & Hplain).
  cbv zeta. split; [exact Hobj|]. split; [exact Hne|]. split; [exact Hstr|].
  split; [exact Hk|]. split; [exact Hafter|]. split; [exact Hget|].
  exact (Hplain Hk).
Defined.

(** ** What the prototype chain shows through *)

Lemma proto_key_no_member : "__proto__" ∉ object_prototype_members.
Proof. by apply (bool_decide_unpack _). Qed.

Lemma from_object_prototype_member k :
  k ∈ object_prototype_members → from_object_prototype k = VBuiltin k.
Proof.
  intros Hk. unfold from_object_prototype, object_prototype_slot.
  case_decide as Hp; [subst; by apply proto_key_no_member in Hk|].
  by rewrite bool_decide_eq_true_2.
Qed.

Lemma object_prototype_slot_accessor k :
  object_prototype_slot k = ProtoAccessor → k = "__proto__".
Proof.
  unfold object_prototype_slot. case_decide; [done|]. by case_bool_decide.
Qed.

Lemma inherited_accessor n h seen p k :
  inherited n h seen p k = ProtoAccessor → k = "__proto__".
Proof.
  revert seen p. induction n as [|n IH]; intros seen p;
    destruct p as [| | | | | |l| |]; simpl;
    try apply object_prototype_slot_accessor; try done;
    case_decide; try done;
    destruct (h !! l) as [[p' fz m| ]|];
    try apply object_prototype_slot_accessor;
    destruct (m !! k); try done.
  apply IH.
Qed.

(** X12. Where the labels object has the prototype of an object literal
    and no property [k] of its own, [getLabel(k)] returns what
    [Object.prototype] holds under [k]: a built-in function for each of
    its eleven methods, [Object.prototype] itself for [__proto__], and
    [undefined] for every other key. *)
Theorem getLabel_inherits (w : world) (k : string) :
  proto_of (store w) (labels (self w)) = VObjectPrototype →
  own_props (store w) (labels (self w)) !! k = None →
  (getLabel k w).1 = Ok (from_object_prototype k) ∧
  (k ∈ object_prototype_members → (getLabel k w).1 = Ok (VBuiltin k)) ∧
  (k = "__proto__" → (getLabel k w).1 = Ok VObjectPrototype) ∧
  (¬ inherited_key k → (getLabel k w).1 = Ok VUndefined).
Proof.
  intros Hp Hk. rewrite getLabel_eq. simpl.
  rewrite get_prop_object_prototype, Hk by done. simpl.
  split; [done|]. split; [|split].
  - intros Hm. by rewrite from_object_prototype_member.
  - by intros ->.
  - intros Hn. by rewrite from_object_prototype_other.
Qed.

Lemma set_prop_accessor h l v m :
  h !! l = Some (CObj m) → m !! "__proto__" = None →
  set_prop h l "__proto__" v = set_prototype h l VObjectPrototype false m v.
Proof.
  intros Hl Hm. unfold set_prop. rewrite Hl. cbv zeta.
  by rewrite Hm, inherited_object_prototype.
Qed.

(** X13. On an ordinary labels object without a property [__proto__] of
    its own, [addLabel("__proto__", s)] returns and stores nothing: the
    world is as it was, and [getLabel("__proto__")] returns
    [Object.prototype], not [s]. *)
Theorem addLabel_proto_key (w : world) (s : string) :
  ordinary (store w) (labels (self w)) →
  own_props (store w) (labels (self w)) !! "__proto__" = None →
  addLabel "__proto__" s w = (Ok tt, w) ∧
  (getLabel "__proto__" (addLabel "__proto__" s w).2).1 = Ok VObjectPrototype.
Proof.
  intros [m Hm] Hk. rewrite (own_props_object _ _ _ _ _ Hm) in Hk.
  assert (Hadd : addLabel "__proto__" s w = (Ok tt, w)).
  { unfold addLabel, gets, mbind, M_mbind, m_bind. rewrite assign_eq.
    rewrite (set_prop_accessor _ _ _ m) by done. simpl. by destruct w. }
  split; [done|]. rewrite Hadd, getLabel_eq. simpl. f_equal.
  rewrite get_prop_object_prototype
    by by rewrite (proto_of_object _ _ _ _ _ Hm).
  by rewrite (own_props_object _ _ _ _ _ Hm), Hk.
Qed.

Lemma assign_frozen l k v w p m :
  store w !! l = Some (CObject p true m) →
  (assign l k v w).2 = w ∧
  (k ≠ "__proto__" → (assign l k v w).1 = Err TypeError).
Proof.
  intros Hl. split.
  - rewrite assign_world, (written_frozen _ _ _ _ p m) by done. by destruct w.
  - intros Hk. rewrite assign_eq. unfold set_prop. rewrite Hl. cbv zeta.
    destruct (m !! k); [done|].
    destruct (inherited _ _ _ _ _) as [|x [|]|] eqn:Hin; try done.
    by apply inherited_accessor in Hin.
Qed.

(** X14. An object the caller has frozen takes no write: [addLabel],
    [addAnnotation] and [add] leave the world as it was, and with a key
    other than [__proto__] they throw a [TypeError]. *)
Theorem frozen_object_takes_no_write
    (w : world) (k s : string) (v : value) (p : value) (m : gmap string value) :
  (store w !! labels (self w) = Some (CObject p true m) →
   (addLabel k s w).2 = w ∧
   (k ≠ "__proto__" → (addLabel k s w).1 = Err TypeError)) ∧
  (store w !! annotations (self w) = Some (CObject p true m) →
   (addAnnotation k s w).2 = w ∧
   (k ≠ "__proto__" → (addAnnotation k s w).1 = Err TypeError)) ∧
  (store w !! _additionalAttributes (self w) = Some (CObject p true m) →
   (add k v w).2 = w ∧
   (k ≠ "__proto__" → (add k v w).1 = Err TypeError)).
Proof. split; [|split]; apply assign_frozen. Qed.



Lemma getLabel_inherits_witness :
  let w := default_world ∅ in
  proto_of (store w) (labels (self w)) = VObjectPrototype ∧
  own_props (store w) (labels (self w)) !! "toString" = None ∧
  "toString" ∈ object_prototype_members ∧
  (getLabel "toString" w).1 = Ok (VBuiltin "toString").
Proof.
  assert (Hp : proto_of (store (default_world ∅))
                 (labels (self (default_world ∅))) = VObjectPrototype)
    by by_evaluation.
  assert (Hk : own_props (store (default_world ∅))
                 (labels (self (default_world ∅))) !! "toString" = None)
    by by_evaluation.
  assert (Hm : "toString" ∈ object_prototype_members)
    by by apply (bool_decide_unpack _).
  cbv zeta. split; [exact Hp|]. split; [exact Hk|]. split; [exact Hm|].
  exact (proj1 (proj2 (getLabel_inherits (default_world ∅) "toString" Hp Hk))
           Hm).
Defined.

Lemma addLabel_proto_key_witness :
  ordinary (store foo_world) (labels (self foo_world)) ∧
  own_props (store foo_world) (labels (self foo_world)) !! "__proto__" = None ∧
  addLabel "__proto__" "x" foo_world = (Ok tt, foo_world) ∧
  (getLabel "__proto__" (addLabel "__proto__" "x" foo_world).2).1
  = Ok VObjectPrototype.
Proof.
  assert (Hord : ordinary (store foo_world) (labels (self foo_world)))
    by (eexists; by_evaluation).
  assert (Hk : own_props (store foo_world) (labels (self foo_world))
               !! "__proto__" = None) by by_evaluation.
  split; [exact Hord|]. split; [exact Hk|].
  exact (addLabel_proto_key foo_world "x" Hord Hk).
Defined.

Lemma frozen_object_takes_no_write_witness :
  store frozen_world !! labels (self frozen_world)
  = Some (CObject VObjectPrototype true {[ "app" := VStr "bar" ]}) ∧
  "tier" ≠ "__proto__" ∧
  (addLabel "tier" "web" frozen_world).2 = frozen_world ∧
  (addLabel "tier" "web" frozen_world).1 = Err TypeError.
Proof.
  assert (Hl : store frozen_world !! labels (self frozen_world)
               = Some (CObject VObjectPrototype true {[ "app" := VStr "bar" ]}))
    by by_evaluation.
  assert (Hk : "tier" ≠ "__proto__") by discriminate.
  destruct (proj1 (frozen_object_takes_no_write frozen_world "tier" "web"
                     VUndefined VObjectPrototype {[ "app" := VStr "bar" ]}) Hl)
    as [Hsame Hthrow].
  split; [exact Hl|]. split; [exact Hk|]. split; [exact Hsame|exact (Hthrow Hk)].
Defined.


(** A prototype given with [add("__proto__", o)] shows through
    [getLabel] when the options object is the labels object: the label
    ["app"] is read from the object at location 1. *)
Example getLabel_reads_through_prototype :
  let w := {| self := {| name := None; namespace := None;
                         labels := 2%positive; annotations := 3%positive;
                         _additionalAttributes := 2%positive |};
              store := {[ 1%positive := CObj {[ "app" := VStr "bar" ]};
                          2%positive := CObj ∅; 3%positive := CObj ∅ ]} |} in
  (getLabel "app" w).1 = Ok VUndefined ∧
  (getLabel "app" (add "__proto__" (VRef 1%positive) w).2).1 = Ok (VStr "bar").
Proof. split; by_evaluation. Qed.

(** A new record has the same snapshot after [add("__proto__", v)]. *)
Example add_proto_snapshot :
  (toSnapshot no_tokens
     (add "__proto__" (VStr "x") (add "custom" (VNum 42) (default_world ∅)).2).2).1
  = Ok (DObj {[ "custom" := DNum 42 ]}).
Proof. by_evaluation. Qed.
